(** * openshift-rebase: classification of carried commits and the carry flow

    A shallow embedding of the Go packages [pkg/apply] (the rebase loop, the
    carry flow and the [UPSTREAM: <action>:] tag parser) and [pkg/git]
    ([Log] and [CheckRemotes]), with the properties the specification states
    about them.

    Go strings are byte sequences and are modelled by [string] (a sequence
    of 8-bit [ascii] characters).  A Go function that returns [error] is
    modelled by a function that returns [option error], [None] being [nil].
    A Go run-time panic is a separate outcome ([Panics]). *)

From Stdlib Require Import ZArith Ascii String List Lia Bool.
From stdpp Require Import base option list gmap strings.

Local Open Scope Z_scope.

(** ** Errors and panics *)

(** [error] values.  [EOF] is the sentinel [io.EOF]; [External] stands for an
    error handed over by a collaborator (go-git, [os], an executed command);
    [Errorf] is [fmt.Errorf format args...] for a format without [%w], and
    [Errorw] the same for a format whose [%w] verb wraps [wrapped]. *)
Inductive error : Type :=
| EOF
| External (msg : string)
| Errorf (format : string) (args : list string)
| Errorw (format : string) (args : list string) (wrapped : error).

(** The outcome of evaluating a Go expression that may panic. *)
Inductive go (A : Type) : Type :=
| Returns (a : A)
| Panics (reason : string).
Arguments Returns {A} a.
Arguments Panics {A} reason.

(** Index expression [xs[i]] on a slice: a run-time panic when [i] is out
    of range, which includes every index into a nil slice. *)
Definition sliceIndex {A} (xs : list A) (i : Z) : go A :=
  if i <? 0 then Panics "index out of range"
  else match xs !! Z.to_nat i with
       | Some x => Returns x
       | None => Panics "index out of range"
       end.

(** ** Strings *)

Module strings.

(** [strings.HasPrefix s prefix] *)
Fixpoint HasPrefix (s prefix : string) : bool :=
  match prefix, s with
  | EmptyString, _ => true
  | String a p', String b s' => if Ascii.eqb a b then HasPrefix s' p' else false
  | String _ _, EmptyString => false
  end.

(** [strings.Contains s substr]: [substr] occurs at some offset of [s]. *)
Fixpoint Contains (s substr : string) : bool :=
  HasPrefix s substr ||
  match s with
  | EmptyString => false
  | String _ s' => Contains s' substr
  end.

End strings.

(** ** The part of Go's [regexp] the program uses *)

Module regexp.

(** Syntax trees covering the pattern of [actionRE]: literals, one
    character of a class, greedy [+], concatenation and a named capturing
    group.  Groups are numbered from 1 by their opening parenthesis.

    Go matches runes of the UTF-8 input, the model matches bytes.  For a
    pattern whose literals and classes are ASCII, as here, the two agree: no
    byte of a multi-byte sequence is an ASCII byte, and a byte that is not
    valid UTF-8 is read as U+FFFD, which no ASCII class holds. *)
Inductive Regexp : Type :=
| Lit (s : string)
| Class (p : ascii -> bool)
| Plus (r : Regexp)
| Cat (r1 r2 : Regexp)
| Capture (name : string) (r : Regexp).

(** Names of the capturing groups, in numbering order. *)
Fixpoint groupNames (r : Regexp) : list string :=
  match r with
  | Lit _ | Class _ => []
  | Plus r1 => groupNames r1
  | Cat r1 r2 => groupNames r1 ++ groupNames r2
  | Capture name r1 => name :: groupNames r1
  end.

(** [re.NumSubexp()] *)
Definition NumSubexp (re : Regexp) : nat := length (groupNames re).

(** [re.SubexpNames()]: element 0 (the whole match) has the empty name. *)
Definition SubexpNames (re : Regexp) : list string := EmptyString :: groupNames re.

Fixpoint indexOf (name : string) (names : list string) (i : Z) : Z :=
  match names with
  | [] => -1
  | s :: names' => if String.eqb name s then i else indexOf name names' (i + 1)
  end.

(** [re.SubexpIndex(name)]: the index of the first group with that name,
    [-1] when there is none or when [name] is empty. *)
Definition SubexpIndex (re : Regexp) (name : string) : Z :=
  if String.eqb name EmptyString then -1 else indexOf name (SubexpNames re) 0.

(** Strip a literal from the front of the input. *)
Fixpoint stripLit (l s : string) : option string :=
  match l, s with
  | EmptyString, _ => Some s
  | String a l', String b s' => if Ascii.eqb a b then stripLit l' s' else None
  | String _ _, EmptyString => None
  end.

(** The text between a position [s] of the input and a later position
    [s'] (both given as the remaining input). *)
Definition consumed (s s' : string) : string :=
  substring 0 (String.length s - String.length s') s.

Abbreviation captures := (gmap nat string).
Definition thread : Type := string * captures.

(** Backtracking matcher in continuation-passing style.  [n] is the number
    of groups opened to the left of [r]; [k] is what remains to be matched.
    Alternatives are tried in priority order, so the first success is the
    leftmost-first match of Go's (Perl-like) semantics: [Plus] prefers one
    more iteration and gives iterations back only when the rest fails. *)
Fixpoint backtrack (r : Regexp) (n : nat) (s : string) (caps : captures)
         (k : string -> captures -> option thread) {struct r} : option thread :=
  match r with
  | Lit l =>
      match stripLit l s with
      | Some s' => k s' caps
      | None => None
      end
  | Class p =>
      match s with
      | String c s' => if p c then k s' caps else None
      | EmptyString => None
      end
  | Cat r1 r2 =>
      backtrack r1 n s caps
        (fun s' caps' => backtrack r2 (n + NumSubexp r1) s' caps' k)
  | Capture _ r1 =>
      backtrack r1 (S n) s caps
        (fun s' caps' => k s' (<[S n := consumed s s']> caps'))
  | Plus r1 =>
      (fix iterate (fuel : nat) (s : string) (caps : captures) {struct fuel}
         : option thread :=
         backtrack r1 n s caps
           (fun s' caps' =>
              match fuel with
              | S fuel' =>
                  if (String.length s' <? String.length s)%nat then
                    match iterate fuel' s' caps' with
                    | Some t => Some t
                    | None => k s' caps'
                    end
                  else k s' caps'
              | O => k s' caps'
              end))
        (String.length s) s caps
  end.

(** A match anchored at the start of [s]: the slice [whole; group 1; ...],
    a group that took no part being the empty string. *)
Definition matchAt (re : Regexp) (s : string) : option (list string) :=
  match backtrack re 0 s ∅ (fun s' caps => Some (s', caps)) with
  | Some (s', caps) =>
      Some (consumed s s' ::
            map (fun i => default EmptyString (caps !! i)) (seq 1 (NumSubexp re)))
  | None => None
  end.

(** [re.FindStringSubmatch(s)]: the leftmost match, tried at every offset
    from the left; the nil slice (here [[]]) when there is none. *)
Fixpoint FindStringSubmatch (re : Regexp) (s : string) : list string :=
  match matchAt re s with
  | Some m => m
  | None =>
      match s with
      | EmptyString => []
      | String _ s' => FindStringSubmatch re s'
      end
  end.

End regexp.

(** ** [strconv.Atoi] *)

Module strconv.

(** [int] is 64 bits wide on the platforms the tool is built for. *)
Definition intSize : Z := 64.
Definition maxInt : Z := 2 ^ (intSize - 1) - 1.
Definition minInt : Z := - 2 ^ (intSize - 1).

Definition digit (c : ascii) : option Z :=
  let n := Z.of_nat (nat_of_ascii c) in
  if (48 <=? n) && (n <=? 57) then Some (n - 48) else None.

Fixpoint digits (s : string) (acc : Z) : option Z :=
  match s with
  | EmptyString => Some acc
  | String c s' =>
      match digit c with
      | Some d => digits s' (acc * 10 + d)
      | None => None
      end
  end.

(** [Atoi s], [None] standing for a non-nil error (syntax or range): an
    optional sign, then at least one decimal digit, the value within the
    range of [int]. *)
Definition Atoi (s : string) : option Z :=
  match s with
  | EmptyString => None
  | String c s' =>
      let '(neg, body) :=
        if Ascii.eqb c "-" then (true, s')
        else if Ascii.eqb c "+" then (false, s')
        else (false, s) in
      match body with
      | EmptyString => None
      | String _ _ =>
          match digits body 0 with
          | Some n =>
              let v := if neg : bool then - n else n in
              if (minInt <=? v) && (v <=? maxInt) then Some v else None
          | None => None
          end
      end
  end.

End strconv.

(** ** Effects: the trace of calls and log lines *)

(** A commit as the program reads it: [Hash] is [commit.Hash.String()], the
    40-digit hexadecimal name of the commit. *)
Record Commit : Type := mkCommit { Hash : string; Message : string }.

Inductive severity : Type := Info | Error.

(** What a run does to the outside world, in order: a [klog] line (severity,
    verbosity of [klog.V], format or message, arguments) or a call to a
    collaborator. *)
Inductive event : Type :=
| Klog (sev : severity) (v : nat) (format : string) (args : list string)
| CallOpenGit (path : string)
| CallGetCommits
| CallNow
| CallCreateBranch (name ref : string)
| CallMerge (ref : string)
| CallCherryPick (sha : string)
| CallStatus
| CallAbortCherryPick
| CallApply (patch : string)
| CallGetwd
| CallStat (path : string).

Definition trace : Type := list event.

(** A computation reads the history so far, extends it and returns a value
    or panics. *)
Definition M (A : Type) : Type := trace -> go A * trace.

Definition ret {A} (a : A) : M A := fun t => (Returns a, t).

Definition bind {A B} (m : M A) (f : A -> M B) : M B :=
  fun t =>
    match m t with
    | (Returns a, t') => f a t'
    | (Panics p, t') => (Panics p, t')
    end.

(** A pure Go expression evaluated inside a computation. *)
Definition eval {A} (g : go A) : M A := fun t => (g, t).

(** A call to a collaborator: its answer may depend on everything that
    happened before; the call is then recorded. *)
Definition call {A} (e : event) (answer : trace -> A) : M A :=
  fun t => (Returns (answer t), t ++ [e]).

Definition klog (sev : severity) (v : nat) (format : string) (args : list string)
  : M unit :=
  fun t => (Returns tt, t ++ [Klog sev v format args]).

Declare Scope go_scope.
Delimit Scope go_scope with go.
Notation "x <- m ;; k" := (bind m (fun x => k))
  (at level 100, m at next level, right associativity) : go_scope.
Notation "m ;; k" := (bind m (fun _ => k))
  (at level 100, right associativity) : go_scope.
(** [if err := m; err != nil { return err }; k] *)
Notation "'check' m ;; k" :=
  (bind m (fun err => match err with Some e => ret (Some e) | None => k end))
  (at level 100, m at next level, right associativity) : go_scope.

(** ** Package [git] *)

Module git.

(** The [Git] interface: the methods package [apply] calls on the
    repository it gets from [OpenGit].  Every method sees the history of the
    run, so that its answer may depend on the calls made before. *)
Record Git : Type := mkGit {
  CreateBranch : trace -> string -> string -> option error;
  Merge : trace -> string -> option error;
  CherryPick : trace -> string -> option error;
  Status : trace -> option error;
  AbortCherryPick : trace -> option error;
  Apply : trace -> string -> option error
}.

(** A remote of the repository configuration ([config.RemoteConfig]). *)
Record RemoteConfig : Type := mkRemote { Name : string; URLs : list string }.

(** [gitv5.LogOptions], of which only [From] is set here; the zero hash
    means "start at HEAD". *)
Record LogOptions : Type := mkLogOptions { From : string }.

Definition ZeroHash : string := "0000000000000000000000000000000000000000".

(** A commit iterator: the results of the successive calls of [Next]; once
    they are used up [Next] returns [io.EOF]. *)
Definition CommitIter : Type := list (error + Commit).

(** The go-git repository behind the [git] struct: the remotes of its
    configuration (a Go map keyed by remote name) and its commit log. *)
Record Repository : Type := mkRepository {
  Remotes : gmap string RemoteConfig;
  RepoLog : LogOptions -> error + CommitIter
}.

Definition ErrRemoteNotFound : error := External "remote not found".

(** [fetchURLForRemote]: the first URL of the remote, the one fetch uses. *)
Definition fetchURLForRemote (repository : Repository) (remoteName : string)
  : error + string :=
  match Remotes repository !! remoteName with
  | None => inl ErrRemoteNotFound
  | Some config =>
      match URLs config with
      | [] => inl (Errorf "no fetch URLs, remote=%s" [remoteName])
      | url :: _ => inr url
      end
  end.

(** The remotes [CheckRemotes] ranges over: name and expected path. *)
Definition expectedRemotes : list (string * string) :=
  [("openshift", "github.com:openshift/kubernetes.git");
   ("upstream", "github.com:kubernetes/kubernetes.git")].

Local Open Scope go_scope.

Fixpoint checkEach (repository : Repository) (remotes : list (string * string))
  : M (option error) :=
  match remotes with
  | [] => ret None
  | (name, path) :: rest =>
      match fetchURLForRemote repository name with
      | inl err => ret (Some err)
      | inr fetchURL =>
          if negb (strings.Contains fetchURL path) then
            ret (Some (Errorf "fetch URL does not match, remote=%s path=%s"
                              [name; path]))
          else
            klog Info 0 "git remote setup properly"
                 ["remote"; name; "fetch-url"; fetchURL] ;;
            checkEach repository rest
      end
  end.

(** [CheckRemotes] *)
Definition CheckRemotes (repository : Repository) : M (option error) :=
  checkEach repository expectedRemotes.

(** The [for] loop of [Log]: [commits] is the slice built so far. *)
Fixpoint collect (iter : CommitIter) (stopAtHash : string) (commits : list Commit)
  : error + list Commit :=
  match iter with
  | [] => inr commits
  | inl EOF :: _ => inr commits
  | inl err :: _ => inl (Errorw "iterating through commit log failed: %w" [] err)
  | inr commit :: iter' =>
      let commits := commits ++ [commit] in
      if String.eqb (Hash commit) stopAtHash then inr commits
      else collect iter' stopAtHash commits
  end.

Section WithPlumbing.

(** [plumbing.NewHash]: the hash a hexadecimal string denotes. *)
Variable NewHash : string -> string.

(** [Log] *)
Definition Log (repository : Repository) (from stopAtHash : string)
  : error + list Commit :=
  let o := mkLogOptions ZeroHash in
  let o := if (0 <? String.length from)%nat then mkLogOptions (NewHash from) else o in
  match RepoLog repository o with
  | inl err => inl (Errorw "git log failed: %w" [] err)
  | inr iter => collect iter stopAtHash []
  end.

(** The [for] loop of [FindRebaseMarkerCommit]; every error of [Next],
    [io.EOF] included, ends it.  (The [return] that follows the loop in the
    source cannot be reached.) *)
Fixpoint findMarker (iter : CommitIter) (marker : string) : error + Commit :=
  match iter with
  | [] => inl (Errorw "failed to find commit with marker: %s - %w" [marker] EOF)
  | inl err :: _ =>
      inl (Errorw "failed to find commit with marker: %s - %w" [marker] err)
  | inr commit :: iter' =>
      if strings.Contains (Message commit) marker then inr commit
      else findMarker iter' marker
  end.

(** [FindRebaseMarkerCommit] *)
Definition FindRebaseMarkerCommit (repository : Repository) (from marker : string)
  : error + Commit :=
  let o := mkLogOptions ZeroHash in
  let o := if (0 <? String.length from)%nat then mkLogOptions (NewHash from) else o in
  match RepoLog repository o with
  | inl err => inl (Errorw "git log failed: %w" [] err)
  | inr iter => findMarker iter marker
  end.

End WithPlumbing.

(** What the remaining methods read of the go-git repository: the hash
    [repository.Head()] refers to, [repository.CommitObject], the hash of the
    reference [repository.Tag] finds, the [Tagger.When] of the annotated tag
    [repository.TagObject] finds (an instant, as a number), and
    [repository.Log] for the options
    [{Since: &when, Order: LogOrderCommitterTime}]. *)
Record Objects : Type := mkObjects {
  RepoHead : error + string;
  CommitObject : string -> error + Commit;
  Tag : string -> error + string;
  TagObject : string -> error + Z;
  LogSince : Z -> error + CommitIter
}.

(** [LogHash] *)
Definition LogHash (objects : Objects) (hash : string) : error + Commit :=
  CommitObject objects hash.

(** [Head] *)
Definition Head (objects : Objects) : error + Commit :=
  match RepoHead objects with
  | inl err => inl err
  | inr reference =>
      match CommitObject objects reference with
      | inl err => inl err
      | inr commit => inr commit
      end
  end.

(** [getCommitMessageAtHead] *)
Definition getCommitMessageAtHead (objects : Objects) : error + string :=
  match RepoHead objects with
  | inl err => inl err
  | inr reference =>
      match CommitObject objects reference with
      | inl err => inl err
      | inr commit => inr (Message commit)
      end
  end.

(** go-git's [iter.ForEach] with the callback of [LogFromTag], which appends
    the commit and returns nil: the slice built and the error [ForEach]
    returns ([io.EOF] ends it without an error). *)
Fixpoint forEachAppend (iter : CommitIter) (commits : list Commit)
  : list Commit * option error :=
  match iter with
  | [] => (commits, None)
  | inl EOF :: _ => (commits, None)
  | inl err :: _ => (commits, Some err)
  | inr c :: iter' => forEachAppend iter' (commits ++ [c])
  end.

Section WithTimeFormat.

(** How [fmt] prints the [*time.Time] argument of the [%q] verb. *)
Variable quoteTime : Z -> string.

(** [LogFromTag]; the error [ForEach] returns is not looked at. *)
Definition LogFromTag (objects : Objects) (tag : string) : error + list Commit :=
  match Tag objects tag with
  | inl err => inl (Errorw "git log failed reading tag %q: %w" [tag] err)
  | inr tagHash =>
      match TagObject objects tagHash with
      | inl err => inl (Errorw "git log failed reading tag 1 %q: %w" [tag] err)
      | inr when =>
          match LogSince objects when with
          | inl err => inl (Errorw "git log failed since %q: %w" [quoteTime when] err)
          | inr iter => inr (fst (forEachAppend iter []))
          end
      end
  end.

End WithTimeFormat.

(** A [time.Time] as [Before] reads it: the seconds and nanoseconds of the
    wall clock ([t.sec()], [t.nsec()]) and, when the value carries one, the
    reading of the monotonic clock. *)
Record Time : Type := mkTime { sec : Z; nsec : Z; monotonic : option Z }.

(** [t.Before(u)]: by the monotonic readings when both values carry one,
    else by the wall clock. *)
Definition Before (t u : Time) : bool :=
  match monotonic t, monotonic u with
  | Some tm, Some um => tm <? um
  | _, _ => (sec t <? sec u) || (sec t =? sec u) && (nsec t <? nsec u)
  end.

(** A commit with the one more field [CommitsByDate] reads,
    [Committer.When]. *)
Record DatedCommit : Type := mkDated { datedCommit : Commit; CommitterWhen : Time }.

(** [type CommitsByDate []*gitv5object.Commit]: a slice of pointers, [None]
    being the nil pointer. *)
Abbreviation CommitsByDate := (list (option DatedCommit)).

(** The selector [p.Committer] on a pointer: a run-time panic on nil. *)
Definition deref {A} (p : option A) : go A :=
  match p with
  | Some x => Returns x
  | None => Panics "invalid memory address or nil pointer dereference"
  end.

(** [Len] *)
Definition Len (s : CommitsByDate) : Z := Z.of_nat (length s).

(** [Swap]: [s[i], s[j] = s[j], s[i]]; both index expressions are evaluated
    (and may panic) before anything is stored.  The pointers are moved, not
    followed. *)
Definition Swap (s : CommitsByDate) (i j : Z) : go CommitsByDate :=
  match sliceIndex s j with
  | Panics p => Panics p
  | Returns sj =>
      match sliceIndex s i with
      | Panics p => Panics p
      | Returns si => Returns (<[Z.to_nat j := si]> (<[Z.to_nat i := sj]> s))
      end
  end.

(** [Less]: [iDate := s[i].Committer.When], then
    [jDate := s[j].Committer.When], then [iDate.Before(jDate)]. *)
Definition Less (s : CommitsByDate) (i j : Z) : go bool :=
  match sliceIndex s i with
  | Panics p => Panics p
  | Returns pi =>
      match deref pi with
      | Panics p => Panics p
      | Returns ci =>
          match sliceIndex s j with
          | Panics p => Panics p
          | Returns pj =>
              match deref pj with
              | Panics p => Panics p
              | Returns cj =>
                  Returns (Before (CommitterWhen ci) (CommitterWhen cj))
              end
          end
      end
  end.

End git.

(** ** Package [git]: [AmendCommitMessage], which runs the [git] command *)

Module gitcmd.

(** [exec.Command(name, args...)]: [CombinedOutput] runs the command, whose
    answer may depend on what happened before, and [CmdString] is
    [cmd.String()]. *)
Record Runner : Type := mkRunner {
  CombinedOutput : trace -> list string -> string * option error;
  CmdString : list string -> string
}.

Definition newline : string := String "010" EmptyString.

Local Open Scope go_scope.

(** Running a command leaves no line of its own in the history. *)
Definition run (runner : Runner) (cmd : list string) : M (string * option error) :=
  fun t => (Returns (CombinedOutput runner t cmd), t).

(** The deferred function of the method: the output of the command, when
    there is any, between two marker lines. *)
Definition logOutput (stdoutStderr : string) : M unit :=
  if (0 <? String.length stdoutStderr)%nat then
    klog Info 0
      ("<<<<<<<<<<<<<<<<<<<< OUTPUT: START <<<<<<<<<<<<<<<<<<<<" +:+ newline +:+ "%s")
      [stdoutStderr] ;;
    klog Info 0
      (">>>>>>>>>>>>>>>>>>>> OUTPUT: END >>>>>>>>>>>>>>>>>>>>>>" +:+ newline) []
  else ret tt.

(** The loop [for _, msg := range f(current) { args = append(args, "-m", msg) }] *)
Fixpoint appendMessages (args msgs : list string) : list string :=
  match msgs with
  | [] => args
  | msg :: msgs' => appendMessages (args ++ ["-m"; msg]) msgs'
  end.

(** [AmendCommitMessage] *)
Definition AmendCommitMessage (objects : git.Objects) (runner : Runner)
           (f : string -> list string) : M (option error) :=
  match git.getCommitMessageAtHead objects with
  | inl err => ret (Some err)
  | inr current =>
      let args := ["commit"; "--allow-empty"; "--amend"] in
      let args := appendMessages args (f current) in
      let cmd := "git" :: args in
      klog Info 0 "amend commit message" ["command"; CmdString runner cmd] ;;
      r <- run runner cmd ;;
      let '(stdoutStderr, err) := r in
      logOutput stdoutStderr ;;
      match err with
      | Some err => ret (Some (Errorw "git cherry-pick failed: %w" [] err))
      | None => ret None
      end
  end.

End gitcmd.

(** ** Package [apply] *)

Module apply.

Import regexp.

(** [\w] of Go's regexp syntax: [0-9A-Za-z_]. *)
Definition isWord (c : ascii) : bool :=
  let n := nat_of_ascii c in
  ((48 <=? n) && (n <=? 57) || (65 <=? n) && (n <=? 90)
   || (97 <=? n) && (n <=? 122) || (n =? 95))%nat.

(** The class [[<>\w]]. *)
Definition isActionChar (c : ascii) : bool :=
  Ascii.eqb c "<" || Ascii.eqb c ">" || isWord c.

(** [actionRE = regexp.MustCompile(`UPSTREAM: (?P<action>[<>\w]+):`)] *)
Definition actionRE : Regexp :=
  Cat (Lit "UPSTREAM: ")
      (Cat (Capture "action" (Plus (Class isActionChar))) (Lit ":")).

(** [actionFromMessage] parses the upstream action from a commit message. *)
Definition actionFromMessage (message : string) : go string :=
  let matches := FindStringSubmatch actionRE message in
  let lastIndex := SubexpIndex actionRE "action" in
  if lastIndex <? 0 then Returns EmptyString
  else sliceIndex matches lastIndex.

(** The arm of the [switch action] statement of [Run] that is taken. *)
Inductive Action : Type := Carry | Drop | Unknown.

Definition switchAction (action : string) : Action :=
  if String.eqb action "<carry>" then Carry
  else if String.eqb action "<drop>" then Drop
  else Unknown.

(** The numeric placeholder of [Run]:
    [if _, err := strconv.Atoi(action); err == nil { action = "<carry>" }] *)
Definition foldNumeric (action : string) : string :=
  match strconv.Atoi action with
  | Some _ => "<carry>"
  | None => action
  end.

(** Classification of a message as [Run] performs it: the tag, the numeric
    placeholder, the arm of the switch. *)
Definition classify (message : string) : go Action :=
  match actionFromMessage message with
  | Returns action => Returns (switchAction (foldNumeric action))
  | Panics p => Panics p
  end.

(** Everything else the package calls: [utils.FormatMessage],
    [git.OpenGit], [carry.Log.GetCommits] (for the [from] and
    [repositoryDir] the log was created with),
    [time.Now().Format(time.DateOnly)], [os.Getwd], [os.Stat] and
    [path.Join]. *)
Record Env : Type := mkEnv {
  FormatMessage : string -> string;
  OpenGit : trace -> string -> error + git.Git;
  GetCommits : trace -> string -> string -> error + list Commit;
  Now : trace -> string;
  Getwd : trace -> error + string;
  Stat : trace -> string -> option error;
  Join : list string -> string
}.

(** The [Apply] struct; its [log] field is the [carry.Log] made of the same
    two strings. *)
Record Apply : Type := mkApply { from : string; repositoryDir : string }.

(** [NewApply] *)
Definition NewApply (from repositoryDir : string) : Apply :=
  mkApply from repositoryDir.

Section WithEnv.

Variable env : Env.

Local Open Scope go_scope.

(** [findFixedCarry] looks for a fixed carry patch: the path of the file
    or an error. *)
Definition findFixedCarry (carrySha : string) : M (error + string) :=
  r <- call CallGetwd (Getwd env) ;;
  match r with
  | inl err => ret (inl err)
  | inr cwd =>
      let carryPath := Join env [cwd; "carries"; carrySha] in
      r <- call (CallStat carryPath) (fun t => Stat env t carryPath) ;;
      match r with
      | Some err => ret (inl err)
      | None => ret (inr carryPath)
      end
  end.

(** [carryFlow] implements the carry action. *)
Definition carryFlow (repository : git.Git) (commit : Commit) : M (option error) :=
  klog Info 2 "Initiating carry flow for %s..." [Hash commit] ;;
  err <- call (CallCherryPick (Hash commit))
              (fun t => git.CherryPick repository t (Hash commit)) ;;
  match err with
  | None => ret None
  | Some _ =>
      klog Info 0 "Encountered problems picking %s:" [Hash commit] ;;
      check call CallStatus (git.Status repository) ;;
      check call CallAbortCherryPick (git.AbortCherryPick repository) ;;
      klog Info 2 "Looking for a fixed carry" [] ;;
      r <- findFixedCarry (Hash commit) ;;
      match r with
      | inl err =>
          klog Error 0
            "Carry https://github.com/openshift/kubernetes/commit/%s requires manual intervention!"
            [Hash commit] ;;
          ret (Some err)
      | inr patch =>
          klog Info 0 "Found %s, applying..." [patch] ;;
          check call (CallApply patch) (fun t => git.Apply repository t patch) ;;
          ret None
      end
  end.

(** The body of the [for _, c := range commits] loop of [Run]:
    [Some err] is [return err], [None] goes on to the next commit. *)
Definition processCommit (repository : git.Git) (c : Commit) : M (option error) :=
  klog Info 2 "Processing %s: %q" [Hash c; FormatMessage env (Message c)] ;;
  action <- eval (actionFromMessage (FormatMessage env (Message c))) ;;
  let action := foldNumeric action in
  match switchAction action with
  | Carry =>
      check carryFlow repository c ;;
      ret None
  | Drop =>
      klog Info 0 "Dropping commit %s." [Hash c] ;;
      ret None
  | Unknown =>
      klog Info 0 "Unkown action on commit %s: %s" [Hash c; action] ;;
      ret None
  end.

Fixpoint processCommits (repository : git.Git) (commits : list Commit)
  : M (option error) :=
  match commits with
  | [] => ret None
  | c :: rest =>
      check processCommit repository c ;;
      processCommits repository rest
  end.

(** [Apply.Run] *)
Definition Run (c : Apply) : M (option error) :=
  r <- call (CallOpenGit (repositoryDir c))
            (fun t => OpenGit env t (repositoryDir c)) ;;
  match r with
  | inl err => ret (Some err)
  | inr repository =>
      r <- call CallGetCommits
                (fun t => GetCommits env t (from c) (repositoryDir c)) ;;
      match r with
      | inl err => ret (Some (Errorw "Error reading carries: %w" [] err))
      | inr commits =>
          today <- call CallNow (Now env) ;;
          let branchName := "rebase-" +:+ today in
          err <- call (CallCreateBranch branchName "refs/remotes/upstream/master")
                      (fun t => git.CreateBranch repository t branchName
                                  "refs/remotes/upstream/master") ;;
          match err with
          | Some err => ret (Some (Errorw "Error creating rebase branch: %w" [] err))
          | None =>
              err <- call (CallMerge "openshift/master")
                          (fun t => git.Merge repository t "openshift/master") ;;
              match err with
              | Some err =>
                  ret (Some (Errorw "Error creating rebase branch: %w" [] err))
              | None => processCommits repository commits
              end
          end
      end
  end.

End WithEnv.

End apply.

(** * Vocabulary of the properties *)

(** ** Tags in a message *)

Module tags.

Import regexp apply.

(** The longest prefix of [s] made of characters of [p], and what follows. *)
Fixpoint span (p : ascii -> bool) (s : string) : string * string :=
  match s with
  | String c s' =>
      if p c then let '(run, rest) := span p s' in (String c run, rest)
      else (EmptyString, s)
  | EmptyString => (EmptyString, EmptyString)
  end.

Fixpoint allChars (p : ascii -> bool) (s : string) : bool :=
  match s with
  | EmptyString => true
  | String c s' => p c && allChars p s'
  end.

(** What [Plus (Class p)] followed by [k] computes: one more character of
    the class first, the continuation on giving it back. *)
Fixpoint greedy {T} (p : ascii -> bool) (s : string) (k : string -> option T)
  : option T :=
  match s with
  | String c s' =>
      if p c then
        match greedy p s' k with
        | Some t => Some t
        | None => k s'
        end
      else None
  | EmptyString => None
  end.

(** A direct scan for [UPSTREAM: <action>:] at the front of [s]. *)
Definition scanTag (s : string) : option (list string) :=
  match stripLit "UPSTREAM: " s with
  | Some s1 =>
      match span isActionChar s1 with
      | (String c run, rest) =>
          match stripLit ":" rest with
          | Some s2 => Some [consumed s s2; String c run]
          | None => None
          end
      | (EmptyString, _) => None
      end
  | None => None
  end.

(** [s] begins with the tag [UPSTREAM: tag:], [tag] being a non-empty word
    over [[<>\w]]. *)
Definition tagAt (s tag : string) : Prop :=
  tag <> EmptyString /\ allChars isActionChar tag = true /\
  exists rest, s = "UPSTREAM: " +:+ tag +:+ ":" +:+ rest.

(** No tag begins at any offset of the message. *)
Definition untagged (message : string) : Prop :=
  forall pre s tag, message = pre +:+ s -> ~ tagAt s tag.

(** [tag] is the tag of the leftmost match in [message]. *)
Definition firstTag (message tag : string) : Prop :=
  exists pre s,
    message = pre +:+ s /\ tagAt s tag /\
    forall pre' s' tag',
      message = pre' +:+ s' -> (String.length pre' < String.length pre)%nat ->
      ~ tagAt s' tag'.

(** [sub] occurs in [s]. *)
Definition occursIn (sub s : string) : Prop :=
  exists pre post, s = pre +:+ sub +:+ post.

End tags.

(** ** Points of a carry flow and of a run *)

Module points.

Import git apply.

Definition logInitiating (commit : Commit) : event :=
  Klog Info 2 "Initiating carry flow for %s..." [Hash commit].
Definition logProblems (commit : Commit) : event :=
  Klog Info 0 "Encountered problems picking %s:" [Hash commit].
Definition logLooking : event := Klog Info 2 "Looking for a fixed carry" [].
Definition logManual (commit : Commit) : event :=
  Klog Error 0
    "Carry https://github.com/openshift/kubernetes/commit/%s requires manual intervention!"
    [Hash commit].
Definition logFound (patch : string) : event :=
  Klog Info 0 "Found %s, applying..." [patch].
Definition logProcessing (env : Env) (c : Commit) : event :=
  Klog Info 2 "Processing %s: %q" [Hash c; FormatMessage env (Message c)].
Definition logDropping (c : Commit) : event :=
  Klog Info 0 "Dropping commit %s." [Hash c].
Definition logUnknown (c : Commit) (action : string) : event :=
  Klog Info 0 "Unkown action on commit %s: %s" [Hash c; action].

(** The history the cherry-pick of [commit] sees when the flow starts at [t]. *)
Definition picking (t : trace) (commit : Commit) : trace :=
  t ++ [logInitiating commit].

(** The history after a failed cherry-pick, which [Status] sees. *)
Definition conflicted (t : trace) (commit : Commit) : trace :=
  t ++ [logInitiating commit; CallCherryPick (Hash commit); logProblems commit].

(** The history [AbortCherryPick] sees. *)
Definition aborting (t : trace) (commit : Commit) : trace :=
  conflicted t commit ++ [CallStatus].

(** The history at the patch-store lookup, which [os.Getwd] sees. *)
Definition looking (t : trace) (commit : Commit) : trace :=
  conflicted t commit ++ [CallStatus; CallAbortCherryPick; logLooking].

(** The key of the patch store for [commit]. *)
Definition carryPath (env : Env) (cwd : string) (commit : Commit) : string :=
  Join env [cwd; "carries"; Hash commit].

(** The history [os.Stat] sees. *)
Definition statting (t : trace) (commit : Commit) : trace :=
  looking t commit ++ [CallGetwd].

(** The history [Apply] sees when the patch was found. *)
Definition applying (t : trace) (commit : Commit) (patch : string) : trace :=
  looking t commit ++ [CallGetwd; CallStat patch; logFound patch].

Definition upstreamRef : string := "refs/remotes/upstream/master".
Definition forkBranch : string := "openshift/master".

(** The history after the repository was opened and the commit log read. *)
Definition logRead (t : trace) (a : Apply) : trace :=
  t ++ [CallOpenGit (repositoryDir a); CallGetCommits].

(** The name of the working branch of a run started at [t]. *)
Definition branchName (env : Env) (t : trace) (a : Apply) : string :=
  "rebase-" +:+ Now env (logRead t a).

(** The history [CreateBranch] sees, and the one [Merge] sees. *)
Definition branching (t : trace) (a : Apply) : trace :=
  logRead t a ++ [CallNow].
Definition merging (env : Env) (t : trace) (a : Apply) : trace :=
  branching t a ++ [CallCreateBranch (branchName env t a) upstreamRef].

(** The history at which the first commit is processed. *)
Definition prepared (env : Env) (t : trace) (a : Apply) : trace :=
  merging env t a ++ [CallMerge forkBranch].

(** The repository opens, the log yields [commits], branch creation and
    merge succeed. *)
Definition prepares (env : Env) (a : Apply) (t : trace)
           (repository : Git) (commits : list Commit) : Prop :=
  OpenGit env t (repositoryDir a) = inr repository /\
  GetCommits env (t ++ [CallOpenGit (repositoryDir a)]) (from a) (repositoryDir a)
    = inr commits /\
  CreateBranch repository (branching t a) (branchName env t a) upstreamRef = None /\
  Merge repository (merging env t a) forkBranch = None.

End points.

(** ** Vocabulary for package [git] *)

Module gitspec.

Import git.

(** What [CheckRemotes] reads of a remote: nothing when the remote is not
    configured, else its first URL if it has one. *)
Definition firstURL (repository : Repository) (name : string)
  : option (option string) :=
  (fun config => head (URLs config)) <$> (Remotes repository !! name).

(** The options [Log] passes to the repository for [from]. *)
Definition logOptions (NewHash : string -> string) (from : string) : LogOptions :=
  if (0 <? String.length from)%nat then mkLogOptions (NewHash from)
  else mkLogOptions ZeroHash.

(** The iterator ends: it is used up, or its next answer is [io.EOF]. *)
Definition atEnd (iter : CommitIter) : Prop :=
  iter = [] \/ exists rest, iter = inl EOF :: rest.

End gitspec.

(** ** Vocabulary for numeric tags and for the replays of a run *)

Module replay.

Import apply.

Definition isDigit (c : ascii) : bool :=
  let n := nat_of_ascii c in ((48 <=? n) && (n <=? 57))%nat.

(** The number a string of decimal digits denotes, most significant digit
    first. *)
Fixpoint decimalValue (s : string) : Z :=
  match s with
  | EmptyString => 0
  | String c s' =>
      (Z.of_nat (nat_of_ascii c) - 48) * 10 ^ Z.of_nat (String.length s')
      + decimalValue s'
  end.

(** [tag] is a number [strconv.Atoi] accepts: decimal digits only, within
    the range of [int]. *)
Definition numericTag (tag : string) : Prop :=
  tags.allChars isDigit tag = true /\ decimalValue tag <= strconv.maxInt.

(** The hashes cherry-picked in a history, in order. *)
Definition pickOf (e : event) : option string :=
  match e with
  | CallCherryPick sha => Some sha
  | _ => None
  end.

Definition picks (t : trace) : list string := omap pickOf t.

(** The commit is one [Run] hands to [carryFlow]. *)
Definition isCarried (env : Env) (c : Commit) : bool :=
  match classify (FormatMessage env (Message c)) with
  | Returns Carry => true
  | _ => false
  end.

(** The commit is one [Run] only logs. *)
Definition skipped (env : Env) (c : Commit) : Prop :=
  classify (FormatMessage env (Message c)) = Returns Drop \/
  classify (FormatMessage env (Message c)) = Returns Unknown.

Definition isLogLine (e : event) : Prop :=
  match e with
  | Klog _ _ _ _ => True
  | _ => False
  end.

End replay.

(** ** Scripted collaborators *)

Module scenario.

Import git apply.

Definition hashA : string := "1111111111111111111111111111111111111111".
Definition hashB : string := "2222222222222222222222222222222222222222".
Definition hashC : string := "3333333333333333333333333333333333333333".

Definition dropped : Commit := mkCommit hashA "UPSTREAM: <drop>: make update".
Definition carried : Commit := mkCommit hashB "UPSTREAM: <carry>: add OWNERS".
Definition later : Commit := mkCommit hashC "UPSTREAM: <carry>: patch the build".
Definition mistagged : Commit := mkCommit hashC "UPSTREAM: carry: patch the build".

Definition conflict : error := External "git cherry-pick failed: exit status 1".
Definition statusFailure : error := External "git status failed: exit status 128".
Definition applyFailure : error := External "git apply failed: exit status 1".
Definition notExist : error := External "stat: no such file or directory".

(** A repository whose cherry-pick fails on the hashes of [conflicts] and
    whose other methods answer as given. *)
Definition fakeGit (conflicts : list string) (status apply : option error) : Git :=
  {| CreateBranch := fun _ _ _ => None;
     Merge := fun _ _ => None;
     CherryPick := fun _ sha =>
       if existsb (String.eqb sha) conflicts then Some conflict else None;
     Status := fun _ => status;
     AbortCherryPick := fun _ => None;
     git.Apply := fun _ _ => apply |}.

Fixpoint joinSlash (parts : list string) : string :=
  match parts with
  | [] => EmptyString
  | [p] => p
  | p :: rest => p +:+ "/" +:+ joinSlash rest
  end.

(** An environment over [repository] whose commit log is [commits] and
    whose patch store holds the files [patches]. *)
Definition fakeEnv (repository : Git) (commits : list Commit) (patches : list string)
  : Env :=
  {| FormatMessage := fun m => m;
     OpenGit := fun _ _ => inr repository;
     GetCommits := fun _ _ _ => inr commits;
     Now := fun _ => "2026-10-30";
     Getwd := fun _ => inr "/work";
     Stat := fun _ p =>
       if existsb (String.eqb p) patches then None else Some notExist;
     Join := joinSlash |}.

Definition session : Apply := NewApply "v1.31.0" "/work/kubernetes".

Definition queue : list Commit := [dropped; carried; later].
Definition patchB : string := "/work/carries/" +:+ hashB.

(** Every cherry-pick succeeds. *)
Definition cleanGit : Git := fakeGit [] None None.
Definition cleanEnv : Env := fakeEnv cleanGit queue [].

(** The cherry-pick of [carried] conflicts; the patch store is empty, or
    holds a patch for it. *)
Definition conflictGit : Git := fakeGit [hashB] None None.
Definition emptyStore : Env := fakeEnv conflictGit queue [].
Definition patchedStore : Env := fakeEnv conflictGit queue [patchB].

(** The cherry-pick of [carried] conflicts and [git status] fails too. *)
Definition brokenStatusGit : Git := fakeGit [hashB] (Some statusFailure) None.
Definition brokenStatusEnv : Env := fakeEnv brokenStatusGit queue [].

(** go-git repositories for [CheckRemotes] and [Log]. *)
Definition goodRemotes : gmap string git.RemoteConfig :=
  <["openshift" := git.mkRemote "openshift"
      ["git@github.com:openshift/kubernetes.git"; "https://mirror.example/k8s.git"]]>
  (<["upstream" := git.mkRemote "upstream"
      ["git@github.com:kubernetes/kubernetes.git"]]> ∅).

Definition history : list Commit := [later; carried; dropped].

Definition repo : git.Repository :=
  git.mkRepository goodRemotes (fun _ => inr (inr <$> history)).

End scenario.

(** ** Vocabulary for the further methods of package [git] *)

Module gitwords.

Import git.

(** The commit's message holds the marker. *)
Definition holdsMarker (marker : string) (c : Commit) : Prop :=
  tags.occursIn marker (Message c).

(** The command line of an amend with the messages [msgs]. *)
Definition amendCommand (msgs : list string) : list string :=
  ["git"; "commit"; "--allow-empty"; "--amend"] ++
  concat ((fun msg => ["-m"; msg]) <$> msgs).

(** The error [AmendCommitMessage] returns for the error of the command. *)
Definition amendError (err : option error) : option error :=
  match err with
  | Some err => Some (Errorw "git cherry-pick failed: %w" [] err)
  | None => None
  end.

(** The lines the output of a command leaves in the log. *)
Definition outputLines (output : string) : trace :=
  match output with
  | EmptyString => []
  | String _ _ =>
      [Klog Info 0
         ("<<<<<<<<<<<<<<<<<<<< OUTPUT: START <<<<<<<<<<<<<<<<<<<<"
          +:+ gitcmd.newline +:+ "%s") [output];
       Klog Info 0
         (">>>>>>>>>>>>>>>>>>>> OUTPUT: END >>>>>>>>>>>>>>>>>>>>>>"
          +:+ gitcmd.newline) []]
  end.

(** [i] is an index of the slice. *)
Definition inRange (s : CommitsByDate) (i : Z) : Prop := 0 <= i < Len s.

(** The entry at index [i] of the slice points to the commit [c]. *)
Definition entryAt (s : CommitsByDate) (i : Z) (c : DatedCommit) : Prop :=
  0 <= i /\ s !! Z.to_nat i = Some (Some c).

(** The entry at index [i] points to a commit whose committer time carries
    a monotonic reading ([m = true]) or none ([m = false]). *)
Definition hasMonotonic (t : Time) : bool :=
  match monotonic t with
  | Some _ => true
  | None => false
  end.

Definition clockAt (s : CommitsByDate) (i : Z) (m : bool) : Prop :=
  exists c, entryAt s i c /\ hasMonotonic (CommitterWhen c) = m.

(** The exchange of the positions [i] and [j]. *)
Definition swapIndex (i j n : nat) : nat :=
  if decide (n = i) then j else if decide (n = j) then i else n.

(** The error of [CheckRemotes] for a remote that does not pass. *)
Definition remoteError (repository : Repository) (name path : string) : error :=
  match gitspec.firstURL repository name with
  | None => ErrRemoteNotFound
  | Some None => Errorf "no fetch URLs, remote=%s" [name]
  | Some (Some _) => Errorf "fetch URL does not match, remote=%s path=%s" [name; path]
  end.

End gitwords.

(** ** Further scripted collaborators *)

Module fixtures.

Import git apply scenario.

(** The working directory cannot be read. *)
Definition noCwdEnv : Env :=
  mkEnv (fun m => m) (fun _ _ => inr conflictGit) (fun _ _ _ => inr queue)
        (fun _ => "2026-10-30") (fun _ => inl notExist) (fun _ _ => None) joinSlash.

(** A queue without a carry. *)
Definition idleQueue : list Commit := [dropped; mistagged].
Definition idleEnv : Env := fakeEnv cleanGit idleQueue [].

Definition marked : Commit :=
  mkCommit hashA "UPSTREAM: <drop>: Rebase marker: v1.31.0".
Definition ioError : error := External "object not found".

(** A log whose newest commits are [later] and [carried], then the marker
    commit; and a log that breaks after [later]. *)
Definition markedRepo : Repository :=
  mkRepository goodRemotes (fun _ => inr (inr <$> [later; carried; marked])).
Definition brokenRepo : Repository :=
  mkRepository goodRemotes (fun _ => inr [inr later; inl ioError; inr carried]).

(** Objects of a repository whose tag [v1.31.0] is annotated, and whose log
    since then breaks after two commits. *)
Definition taggedObjects : Objects :=
  mkObjects (inr hashC)
            (fun h => if String.eqb h hashC then inr later else inl ioError)
            (fun tag => if String.eqb tag "v1.31.0" then inr hashA else inl ioError)
            (fun h => if String.eqb h hashA then inr 1700000000 else inl ioError)
            (fun _ => inr [inr later; inr carried; inl ioError; inr dropped]).

(** Committer times as go-git decodes them (no monotonic reading), and one
    taken from the running clock. *)
Definition wallTime (seconds : Z) : Time := mkTime seconds 0 None.
Definition clockTime (seconds mono : Z) : Time := mkTime seconds 0 (Some mono).

Definition byDate : CommitsByDate :=
  [Some (mkDated later (wallTime 30)); Some (mkDated carried (wallTime 10));
   Some (mkDated dropped (wallTime 20))].

(** A slice with a nil entry. *)
Definition withNil : CommitsByDate :=
  [Some (mkDated later (wallTime 30)); None].

(** Two entries stamped by the running clock around one read from a commit. *)
Definition mixedClocks : CommitsByDate :=
  [Some (mkDated later (clockTime 10 5)); Some (mkDated carried (wallTime 20));
   Some (mkDated dropped (clockTime 30 1))].


End fixtures.

(** * Properties *)

Import regexp git apply tags points gitspec.

(** ** The matcher on [actionRE] and the tags of a message *)

Lemma backtrack_Plus_Class p n s caps k :
  backtrack (Plus (Class p)) n s caps k = greedy p s (fun s' => k s' caps).
Proof.
  cbn [backtrack].
  match goal with |- ?f (String.length s) s caps = _ => set (it := f) end.
  assert (H : forall fuel s0, (String.length s0 <= fuel)%nat ->
                it fuel s0 caps = greedy p s0 (fun s' => k s' caps)).
  { induction fuel as [|fuel IH]; intros [|c s0] Hlen; cbn in Hlen; try lia.
    - reflexivity.
    - reflexivity.
    - subst it. cbn. destruct (p c); [|reflexivity].
      rewrite Nat.leb_refl, IH by lia. reflexivity. }
  apply H. lia.
Qed.

Lemma greedy_span {T} p (k : string -> option T) s :
  (forall c s', p c = true -> k (String c s') = None) ->
  greedy p s k =
  match span p s with
  | (EmptyString, _) => None
  | (String _ _, rest) => k rest
  end.
Proof.
  intros Hk. induction s as [|c s IH]; [reflexivity|].
  cbn. destruct (p c) eqn:Hc; [|reflexivity].
  rewrite IH. destruct (span p s) as [[|c' run] rest] eqn:Hspan.
  - destruct s as [|c'' s'']; cbn in Hspan.
    + inversion Hspan; reflexivity.
    + destruct (p c''); [destruct (span p s''); discriminate|].
      inversion Hspan; reflexivity.
  - destruct (k rest) eqn:Hrest; [reflexivity|].
    destruct s as [|c'' s'']; cbn in Hspan; [discriminate|].
    destruct (p c'') eqn:Hc''; [|discriminate].
    apply Hk, Hc''.
Qed.

Lemma append_nil s : EmptyString +:+ s = s.
Proof. reflexivity. Qed.

Lemma append_cons c a b : String c a +:+ b = String c (a +:+ b).
Proof. reflexivity. Qed.

Lemma span_append p s run rest :
  span p s = (run, rest) -> s = run +:+ rest.
Proof.
  revert run rest. induction s as [|c s IH]; intros run rest; cbn.
  - intros [= <- <-]. reflexivity.
  - destruct (p c).
    + destruct (span p s) as [run' rest']. intros [= <- <-].
      rewrite append_cons. f_equal. apply IH. reflexivity.
    + intros [= <- <-]. reflexivity.
Qed.

Lemma span_allChars p s run rest :
  span p s = (run, rest) -> allChars p run = true.
Proof.
  revert run rest. induction s as [|c s IH]; intros run rest; cbn.
  - intros [= <- <-]. reflexivity.
  - destruct (p c) eqn:Hc.
    + destruct (span p s) as [run' rest']. intros [= <- <-].
      cbn. rewrite Hc. eapply IH. reflexivity.
    + intros [= <- <-]. reflexivity.
Qed.

Lemma span_stop p run c rest :
  allChars p run = true -> p c = false ->
  span p (run +:+ String c rest) = (run, String c rest).
Proof.
  intros Hrun Hc. induction run as [|c' run IH].
  - rewrite append_nil. cbn. rewrite Hc. reflexivity.
  - rewrite append_cons. cbn. cbn in Hrun. apply andb_true_iff in Hrun as [Hc' Hrun].
    rewrite Hc', IH by assumption. reflexivity.
Qed.

Lemma stripLit_Some l s s' : stripLit l s = Some s' <-> s = l +:+ s'.
Proof.
  revert s. induction l as [|a l IH]; intros s; cbn.
  - rewrite append_nil. split; [intros [= ->]|intros ->]; reflexivity.
  - rewrite append_cons. destruct s as [|b s].
    + split; discriminate.
    + destruct (Ascii.eqb_spec a b) as [->|Hne].
      * rewrite IH. split; [intros ->; reflexivity|intros [= ->]; reflexivity].
      * split; [discriminate|intros [= -> _]; congruence].
Qed.

Lemma length_append a b :
  String.length (a +:+ b) = (String.length a + String.length b)%nat.
Proof.
  induction a as [|c a IH]; [reflexivity|].
  rewrite append_cons. cbn. rewrite IH. reflexivity.
Qed.

Lemma consumed_append a b : consumed (a +:+ b) b = a.
Proof.
  unfold consumed. rewrite length_append.
  replace (String.length a + String.length b - String.length b)%nat
    with (String.length a) by lia.
  induction a as [|c a IH].
  - rewrite append_nil. destruct b; reflexivity.
  - rewrite append_cons. cbn. f_equal. apply IH.
Qed.

Lemma backtrack_Cat r1 r2 n s caps k :
  backtrack (Cat r1 r2) n s caps k =
  backtrack r1 n s caps (fun s' caps' => backtrack r2 (n + NumSubexp r1) s' caps' k).
Proof. reflexivity. Qed.

Lemma backtrack_Lit l n s caps k :
  backtrack (Lit l) n s caps k =
  match stripLit l s with Some s' => k s' caps | None => None end.
Proof. reflexivity. Qed.

Lemma backtrack_Capture name r n s caps k :
  backtrack (Capture name r) n s caps k =
  backtrack r (S n) s caps (fun s' caps' => k s' (<[S n := consumed s s']> caps')).
Proof. reflexivity. Qed.

Lemma isActionChar_colon c : isActionChar c = true -> Ascii.eqb ":" c = false.
Proof.
  destruct (Ascii.eqb_spec ":" c) as [<-|]; [|reflexivity].
  vm_compute. discriminate.
Qed.

Lemma matchAt_actionRE s : matchAt actionRE s = scanTag s.
Proof.
  unfold matchAt, scanTag, actionRE.
  rewrite backtrack_Cat, backtrack_Lit.
  destruct (stripLit "UPSTREAM: " s) as [s1|]; [|reflexivity].
  rewrite backtrack_Cat, backtrack_Capture, backtrack_Plus_Class.
  rewrite greedy_span.
  - destruct (span isActionChar s1) as [[|c run] rest] eqn:Hspan; [reflexivity|].
    rewrite backtrack_Lit.
    destruct (stripLit ":" rest) as [s2|]; [|reflexivity].
    cbn. rewrite lookup_insert_eq. cbn.
    apply span_append in Hspan. rewrite Hspan at 1.
    rewrite consumed_append. reflexivity.
  - intros c s' Hc. rewrite backtrack_Lit.
    change (stripLit ":" (String c s'))
      with (if Ascii.eqb ":" c then stripLit EmptyString s' else None).
    rewrite (isActionChar_colon c Hc). reflexivity.
Qed.

Lemma append_assoc a b c : (a +:+ b) +:+ c = a +:+ (b +:+ c).
Proof.
  induction a as [|x a IH]; [reflexivity|].
  rewrite !append_cons, IH. reflexivity.
Qed.

Lemma scanTag_tagAt s tag :
  tagAt s tag -> scanTag s = Some ["UPSTREAM: " +:+ tag +:+ ":"; tag].
Proof.
  intros (Hne & Hall & rest & ->). unfold scanTag.
  assert (H1 : stripLit "UPSTREAM: " ("UPSTREAM: " +:+ tag +:+ ":" +:+ rest)
               = Some (tag +:+ ":" +:+ rest)) by (apply stripLit_Some; reflexivity).
  rewrite H1.
  change (":" +:+ rest) with (String ":" rest).
  rewrite span_stop by (assumption || reflexivity).
  destruct tag as [|c run]; [congruence|].
  change (stripLit ":" (String ":" rest)) with (Some rest).
  do 2 f_equal.
  rewrite <- (consumed_append ("UPSTREAM: " +:+ String c run +:+ ":") rest) at 1.
  f_equal. rewrite !append_assoc. reflexivity.
Qed.

Lemma scanTag_Some s m :
  scanTag s = Some m ->
  exists tag, tagAt s tag /\ m = ["UPSTREAM: " +:+ tag +:+ ":"; tag].
Proof.
  unfold scanTag.
  destruct (stripLit "UPSTREAM: " s) as [s1|] eqn:H1; [|discriminate].
  destruct (span isActionChar s1) as [[|c run] rest] eqn:Hspan; [discriminate|].
  destruct (stripLit ":" rest) as [s2|] eqn:H2; [|discriminate].
  intros [= <-].
  assert (Ht : tagAt s (String c run)).
  { split; [discriminate|]. split; [eapply span_allChars, Hspan|].
    exists s2. apply stripLit_Some in H1 as ->.
    apply span_append in Hspan as ->. apply stripLit_Some in H2 as ->.
    reflexivity. }
  exists (String c run). split; [exact Ht|].
  pose proof (scanTag_tagAt s _ Ht) as E. unfold scanTag in E.
  rewrite H1, Hspan, H2 in E. injection E as ->. reflexivity.
Qed.

Lemma scanTag_None s : (forall tag, ~ tagAt s tag) -> scanTag s = None.
Proof.
  intros H. destruct (scanTag s) as [m|] eqn:Hm; [|reflexivity].
  apply scanTag_Some in Hm as (tag & Ht & _). destruct (H tag Ht).
Qed.

Lemma FindStringSubmatch_cons c s :
  scanTag (String c s) = None ->
  FindStringSubmatch actionRE (String c s) = FindStringSubmatch actionRE s.
Proof.
  intros H. cbn [FindStringSubmatch]. rewrite matchAt_actionRE, H. reflexivity.
Qed.

Lemma FindStringSubmatch_here s m :
  scanTag s = Some m -> FindStringSubmatch actionRE s = m.
Proof.
  intros H. destruct s; cbn [FindStringSubmatch]; rewrite matchAt_actionRE, H;
    reflexivity.
Qed.

Lemma FindStringSubmatch_firstTag message tag :
  firstTag message tag ->
  FindStringSubmatch actionRE message = ["UPSTREAM: " +:+ tag +:+ ":"; tag].
Proof.
  intros (pre & s & -> & Ht & Hfirst).
  induction pre as [|c pre IH].
  - rewrite append_nil. apply FindStringSubmatch_here, scanTag_tagAt, Ht.
  - rewrite append_cons. rewrite FindStringSubmatch_cons.
    + apply IH. intros pre' s' tag' Heq Hlen.
      apply (Hfirst (String c pre') s' tag').
      * rewrite !append_cons, Heq. reflexivity.
      * cbn. lia.
    + apply scanTag_None. intros tag'.
      apply (Hfirst EmptyString (String c (pre +:+ s)) tag'); [reflexivity|cbn; lia].
Qed.

Lemma FindStringSubmatch_untagged message :
  untagged message -> FindStringSubmatch actionRE message = [].
Proof.
  induction message as [|c message IH]; intros Hun.
  - cbn [FindStringSubmatch]. rewrite matchAt_actionRE. reflexivity.
  - rewrite FindStringSubmatch_cons.
    + apply IH. intros pre s tag Heq. apply (Hun (String c pre) s tag).
      rewrite append_cons, Heq. reflexivity.
    + apply scanTag_None. intros tag. apply (Hun EmptyString _ tag). reflexivity.
Qed.

Lemma tagged_or_untagged message :
  untagged message \/ exists tag, firstTag message tag.
Proof.
  induction message as [|c message IH].
  - left. intros pre s tag Heq Ht.
    destruct pre; [|discriminate]. rewrite append_nil in Heq. subst s.
    apply scanTag_tagAt in Ht. discriminate.
  - destruct (scanTag (String c message)) as [m|] eqn:Hscan.
    + right. apply scanTag_Some in Hscan as (tag & Ht & _).
      exists tag, EmptyString, (String c message).
      split; [reflexivity|]. split; [exact Ht|]. cbn. intros; lia.
    + destruct IH as [Hun|(tag & pre & s & -> & Ht & Hfirst)].
      * left. intros [|c' pre] s tag Heq Ht.
        -- rewrite append_nil in Heq. subst s.
           apply scanTag_tagAt in Ht. congruence.
        -- rewrite append_cons in Heq. injection Heq as -> ->.
           apply (Hun pre s tag); [reflexivity|exact Ht].
      * right. exists tag, (String c pre), s.
        split; [reflexivity|]. split; [exact Ht|].
        intros [|c' pre'] s' tag' Heq Hlen Ht'.
        -- rewrite append_nil in Heq. subst s'.
           apply scanTag_tagAt in Ht'. congruence.
        -- rewrite append_cons in Heq. injection Heq as -> Heq.
           apply (Hfirst pre' s' tag'); [exact Heq|cbn in Hlen; lia|exact Ht'].
Qed.

(** ** Classification *)

Lemma SubexpIndex_action : SubexpIndex actionRE "action" = 1.
Proof. reflexivity. Qed.

(** A message without a tag makes [actionFromMessage] index the nil slice. *)
Lemma actionFromMessage_untagged message :
  untagged message -> actionFromMessage message = Panics "index out of range".
Proof.
  intros Hun. unfold actionFromMessage.
  rewrite SubexpIndex_action, (FindStringSubmatch_untagged _ Hun). reflexivity.
Qed.

(** With a tag in the message, [actionFromMessage] returns the first one. *)
Lemma actionFromMessage_firstTag message tag :
  firstTag message tag -> actionFromMessage message = Returns tag.
Proof.
  intros Ht. unfold actionFromMessage.
  rewrite SubexpIndex_action, (FindStringSubmatch_firstTag _ _ Ht). reflexivity.
Qed.

(** [actionFromMessage] returns exactly on the messages that hold a tag. *)
Lemma actionFromMessage_returns_iff message :
  (exists action, actionFromMessage message = Returns action) <->
  (exists tag, firstTag message tag).
Proof.
  split.
  - intros [action Ha]. destruct (tagged_or_untagged message) as [Hun|Ht]; [|exact Ht].
    rewrite (actionFromMessage_untagged _ Hun) in Ha. discriminate.
  - intros [tag Ht]. exists tag. apply actionFromMessage_firstTag, Ht.
Qed.

(** C1 (the code departs from the claim): on the message
    ["Fix typo in README"], which holds no [UPSTREAM: <action>:] tag,
    [actionFromMessage] does not return a value: [FindStringSubmatch] yields
    the nil slice, the guard [lastIndex < 0] does not fire ([lastIndex] is 1)
    and the index expression [matches[lastIndex]] panics. *)
Theorem actionFromMessage_panics_on_untagged_message :
  actionFromMessage "Fix typo in README" = Panics "index out of range".
Proof. vm_compute. reflexivity. Qed.

Lemma classify_firstTag message tag :
  firstTag message tag -> classify message = Returns (switchAction (foldNumeric tag)).
Proof.
  intros Ht. unfold classify. rewrite (actionFromMessage_firstTag _ _ Ht). reflexivity.
Qed.

Lemma switchAction_other action :
  action <> "<carry>" -> action <> "<drop>" -> switchAction action = Unknown.
Proof.
  intros Hc Hd. unfold switchAction.
  apply String.eqb_neq in Hc, Hd. rewrite Hc, Hd. reflexivity.
Qed.

(** C3, as stated, fails: a message may contain [UPSTREAM: carry:] and be
    classified as Unknown, because the tag the switch of [Run] compares with
    is [<carry>], angle brackets included. *)
Lemma classify_bare_carry_word_is_unknown :
  strings.Contains "UPSTREAM: carry: patch the build" "UPSTREAM: carry:" = true /\
  classify "UPSTREAM: carry: patch the build" = Returns Unknown /\
  classify "UPSTREAM: carry: patch the build" <> Returns Carry.
Proof. vm_compute. repeat split; discriminate. Qed.

(** Only the leftmost tag counts: a later [UPSTREAM: <carry>:] or
    [UPSTREAM: 42:] does not make a message a carry. *)
Lemma classify_leftmost_tag_wins :
  classify "UPSTREAM: <drop>: revert UPSTREAM: <carry>: add OWNERS" = Returns Drop /\
  classify "UPSTREAM: <drop>: revert UPSTREAM: 42: fix" = Returns Drop.
Proof. vm_compute. split; reflexivity. Qed.

(** A number beyond the range of [int] is not folded into a carry. *)
Lemma classify_huge_number_is_unknown :
  classify "UPSTREAM: 9223372036854775808: fix" = Returns Unknown.
Proof. vm_compute. reflexivity. Qed.

(** C3 (amended): the leftmost [UPSTREAM: <tag>:] match of the message
    decides.  When its tag is [<carry>] the classification is Carry, when it
    is [<drop>] it is Drop, when it is [42] it is Carry, and any other tag
    that [strconv.Atoi] rejects, the bare words [carry] and [drop] among
    them, is Unknown. *)
Theorem classify_by_first_tag message tag :
  firstTag message tag ->
  (tag = "<carry>" -> classify message = Returns Carry) /\
  (tag = "<drop>" -> classify message = Returns Drop) /\
  (tag = "42" -> classify message = Returns Carry) /\
  (tag <> "<carry>" -> tag <> "<drop>" -> strconv.Atoi tag = None ->
   classify message = Returns Unknown).
Proof.
  intros Ht. rewrite (classify_firstTag _ _ Ht).
  repeat split.
  - intros ->. reflexivity.
  - intros ->. reflexivity.
  - intros ->. reflexivity.
  - intros Hc Hd Hn. unfold foldNumeric. rewrite Hn.
    rewrite switchAction_other by assumption. reflexivity.
Qed.

Lemma firstTag_at_front tag rest :
  tag <> EmptyString -> allChars isActionChar tag = true ->
  firstTag ("UPSTREAM: " +:+ tag +:+ ":" +:+ rest) tag.
Proof.
  intros Hne Hall. exists EmptyString, ("UPSTREAM: " +:+ tag +:+ ":" +:+ rest).
  split; [reflexivity|]. split.
  - split; [exact Hne|]. split; [exact Hall|]. exists rest. reflexivity.
  - cbn. intros; lia.
Qed.

Lemma classify_by_first_tag_witness :
  firstTag "UPSTREAM: <carry>: add OWNERS" "<carry>" /\
  classify "UPSTREAM: <carry>: add OWNERS" = Returns Carry.
Proof.
  assert (H : firstTag "UPSTREAM: <carry>: add OWNERS" "<carry>")
    by (apply (firstTag_at_front "<carry>" " add OWNERS"); [discriminate|reflexivity]).
  split; [exact H|].
  exact (proj1 (classify_by_first_tag _ _ H) eq_refl).
Defined.

(** ** The carry flow *)

Ltac flatten_trace :=
  rewrite <- ?app_assoc; cbn [app].

(** [carryFlow], one branch per way through it, with the history each
    collaborator sees and the history the flow leaves. *)
Lemma carryFlow_cases env repository commit t :
  carryFlow env repository commit t =
  match CherryPick repository (picking t commit) (Hash commit) with
  | None => (Returns None, picking t commit ++ [CallCherryPick (Hash commit)])
  | Some _ =>
      match Status repository (conflicted t commit) with
      | Some e => (Returns (Some e), aborting t commit)
      | None =>
          match AbortCherryPick repository (aborting t commit) with
          | Some e => (Returns (Some e), aborting t commit ++ [CallAbortCherryPick])
          | None =>
              match Getwd env (looking t commit) with
              | inl e => (Returns (Some e), statting t commit ++ [logManual commit])
              | inr cwd =>
                  let patch := carryPath env cwd commit in
                  match Stat env (statting t commit) patch with
                  | Some e =>
                      (Returns (Some e),
                       statting t commit ++ [CallStat patch; logManual commit])
                  | None =>
                      (Returns (git.Apply repository (applying t commit patch) patch),
                       applying t commit patch ++ [CallApply patch])
                  end
              end
          end
      end
  end.
Proof.
  unfold carryFlow, findFixedCarry, bind, call, klog, ret.
  unfold applying, statting, looking, aborting, conflicted, picking, carryPath.
  unfold logInitiating, logProblems, logLooking, logManual, logFound.
  destruct (CherryPick repository _ _); [|flatten_trace; reflexivity].
  flatten_trace.
  destruct (Status repository _); [flatten_trace; reflexivity|].
  flatten_trace.
  destruct (AbortCherryPick repository _); [flatten_trace; reflexivity|].
  flatten_trace.
  destruct (Getwd env _) as [?|cwd]; [flatten_trace; reflexivity|].
  flatten_trace.
  destruct (Stat env _ _); [flatten_trace; reflexivity|].
  flatten_trace.
  destruct (git.Apply repository _ _); flatten_trace; reflexivity.
Qed.

(** C7: when the cherry-pick of the commit succeeds, [carryFlow] returns
    nil at once: after its opening log line the cherry-pick is the only call
    it makes; no status, abort, patch lookup or patch application follows. *)
Theorem carryFlow_clean_pick env repository commit t :
  CherryPick repository (picking t commit) (Hash commit) = None ->
  carryFlow env repository commit t =
  (Returns None, t ++ [logInitiating commit; CallCherryPick (Hash commit)]).
Proof.
  intros Hpick. rewrite carryFlow_cases, Hpick.
  unfold picking. flatten_trace. reflexivity.
Qed.

(** C2 (amended): when the cherry-pick fails, [carryFlow] first asks for the
    working-tree status.  When the status call succeeds, the abort of the
    cherry-pick is the very next call, before any lookup in the patch store;
    when the status call fails, [carryFlow] returns that error at once and
    makes neither the abort nor a lookup. *)
Theorem carryFlow_status_then_abort env repository commit t err :
  CherryPick repository (picking t commit) (Hash commit) = Some err ->
  (Status repository (conflicted t commit) = None ->
   exists r rest,
     carryFlow env repository commit t =
     (r, t ++ [logInitiating commit; CallCherryPick (Hash commit); logProblems commit;
               CallStatus; CallAbortCherryPick] ++ rest)) /\
  (forall e, Status repository (conflicted t commit) = Some e ->
     carryFlow env repository commit t =
     (Returns (Some e),
      t ++ [logInitiating commit; CallCherryPick (Hash commit); logProblems commit;
            CallStatus])).
Proof.
  intros Hpick. split.
  - intros Hstatus. rewrite carryFlow_cases, Hpick, Hstatus.
    unfold applying, statting, looking, aborting, conflicted.
    destruct (AbortCherryPick repository _).
    { eexists _, []. flatten_trace. reflexivity. }
    destruct (Getwd env _) as [?|cwd].
    { eexists _, [_; _; _]. flatten_trace. reflexivity. }
    cbv zeta. destruct (Stat env _ _).
    { eexists _, [_; _; _; _]. flatten_trace. reflexivity. }
    eexists _, [_; _; _; _; _]. flatten_trace. reflexivity.
  - intros e Hstatus. rewrite carryFlow_cases, Hpick, Hstatus.
    unfold aborting, conflicted. flatten_trace. reflexivity.
Qed.


(** ** The loop over the commits and [Run] *)

Lemma classify_Returns message a :
  classify message = Returns a <->
  exists action,
    actionFromMessage message = Returns action /\
    switchAction (foldNumeric action) = a.
Proof.
  unfold classify. destruct (actionFromMessage message) as [action|p].
  - split.
    + intros [= <-]. exists action. split; reflexivity.
    + intros (action' & [= <-] & <-). reflexivity.
  - split; [discriminate|]. intros (action & Hp & _). discriminate.
Qed.

(** The loop body on a commit that is carried: the carry flow decides. *)
Lemma processCommit_carry env repository c t :
  classify (FormatMessage env (Message c)) = Returns Carry ->
  processCommit env repository c t =
  carryFlow env repository c (t ++ [logProcessing env c]).
Proof.
  intros (action & Ha & Hs)%classify_Returns.
  unfold processCommit, bind, klog, eval, ret. rewrite Ha, Hs.
  fold (logProcessing env c).
  destruct (carryFlow env repository c _) as [[[e|]|p] t']; reflexivity.
Qed.

Lemma processCommit_drop env repository c t :
  classify (FormatMessage env (Message c)) = Returns Drop ->
  processCommit env repository c t =
  (Returns None, t ++ [logProcessing env c; logDropping c]).
Proof.
  intros (action & Ha & Hs)%classify_Returns.
  unfold processCommit, bind, klog, eval, ret. rewrite Ha, Hs.
  flatten_trace. reflexivity.
Qed.

Lemma processCommit_unknown env repository c t :
  classify (FormatMessage env (Message c)) = Returns Unknown ->
  exists action,
    processCommit env repository c t =
    (Returns None, t ++ [logProcessing env c; logUnknown c action]).
Proof.
  intros (action & Ha & Hs)%classify_Returns. exists (foldNumeric action).
  unfold processCommit, bind, klog, eval, ret. rewrite Ha, Hs.
  flatten_trace. reflexivity.
Qed.

Lemma processCommits_cons env repository c rest t :
  processCommits env repository (c :: rest) t =
  match processCommit env repository c t with
  | (Returns (Some e), t') => (Returns (Some e), t')
  | (Returns None, t') => processCommits env repository rest t'
  | (Panics p, t') => (Panics p, t')
  end.
Proof.
  cbn [processCommits]. unfold bind, ret.
  destruct (processCommit env repository c t) as [[[e|]|p] t']; reflexivity.
Qed.

(** Commits processed without an error hand the history over to the rest. *)
Lemma processCommits_app env repository pre rest t t1 :
  processCommits env repository pre t = (Returns None, t1) ->
  processCommits env repository (pre ++ rest) t = processCommits env repository rest t1.
Proof.
  revert t. induction pre as [|c pre IH]; intros t.
  - intros [= <-]. reflexivity.
  - rewrite <- app_comm_cons, !processCommits_cons.
    destruct (processCommit env repository c t) as [[[e|]|p] t']; try discriminate.
    apply IH.
Qed.

(** [Run] up to the loop, when nothing fails. *)
Lemma Run_prepares env a t repository commits :
  prepares env a t repository commits ->
  Run env a t = processCommits env repository commits (prepared env t a).
Proof.
  intros (Hopen & Hlog & Hbranch & Hmerge).
  unfold Run, bind, call, ret.
  unfold prepared, merging, branching, branchName, logRead, upstreamRef, forkBranch in *.
  revert Hbranch Hmerge. flatten_trace. intros Hbranch Hmerge.
  rewrite Hopen, Hlog. flatten_trace. rewrite Hbranch. flatten_trace.
  rewrite Hmerge. reflexivity.
Qed.

(** C4 (amended): [Run] opens the repository and reads the commit log
    first; it then creates the branch [rebase-<date>] from
    [refs/remotes/upstream/master] and merges [openshift/master], and only
    then processes the first commit.  An error of the branch creation or of
    the merge ends the run at that call with the error wrapped by
    ["Error creating rebase branch: %w"]. *)
Theorem Run_branch_and_merge_before_replay env a t repository commits :
  OpenGit env t (repositoryDir a) = inr repository ->
  GetCommits env (t ++ [CallOpenGit (repositoryDir a)]) (from a) (repositoryDir a)
    = inr commits ->
  prepared env t a =
    t ++ [CallOpenGit (repositoryDir a); CallGetCommits; CallNow;
          CallCreateBranch (branchName env t a) "refs/remotes/upstream/master";
          CallMerge "openshift/master"] /\
  (forall err,
     CreateBranch repository (branching t a) (branchName env t a) upstreamRef
       = Some err ->
     Run env a t =
     (Returns (Some (Errorw "Error creating rebase branch: %w" [] err)),
      merging env t a)) /\
  (forall err,
     CreateBranch repository (branching t a) (branchName env t a) upstreamRef = None ->
     Merge repository (merging env t a) forkBranch = Some err ->
     Run env a t =
     (Returns (Some (Errorw "Error creating rebase branch: %w" [] err)),
      prepared env t a)) /\
  (CreateBranch repository (branching t a) (branchName env t a) upstreamRef = None ->
   Merge repository (merging env t a) forkBranch = None ->
   Run env a t = processCommits env repository commits (prepared env t a)).
Proof.
  intros Hopen Hlog. split; [|split; [|split]].
  - unfold prepared, merging, branching, logRead, upstreamRef, forkBranch.
    flatten_trace. reflexivity.
  - intros err Hbranch. unfold Run, bind, call, ret.
    unfold merging, branching, branchName, logRead, upstreamRef in *.
    revert Hbranch. flatten_trace. intros Hbranch.
    rewrite Hopen, Hlog. flatten_trace. rewrite Hbranch. reflexivity.
  - intros err Hbranch Hmerge. unfold Run, bind, call, ret.
    unfold prepared, merging, branching, branchName, logRead, upstreamRef, forkBranch in *.
    revert Hbranch Hmerge. flatten_trace. intros Hbranch Hmerge.
    rewrite Hopen, Hlog. flatten_trace. rewrite Hbranch. flatten_trace.
    rewrite Hmerge. reflexivity.
  - intros Hbranch Hmerge. apply Run_prepares. repeat split; assumption.
Qed.

(** C6: when [carryFlow] returns an error for a commit of the queue, [Run]
    returns that very error and the history of the run ends where
    [carryFlow] returned: nothing is logged or called for the commits that
    follow it. *)
Theorem Run_halts_on_carry_error env a t repository pre c rest t1 t2 err :
  prepares env a t repository (pre ++ c :: rest) ->
  processCommits env repository pre (prepared env t a) = (Returns None, t1) ->
  classify (FormatMessage env (Message c)) = Returns Carry ->
  carryFlow env repository c (t1 ++ [logProcessing env c]) = (Returns (Some err), t2) ->
  Run env a t = (Returns (Some err), t2).
Proof.
  intros Hprep Hpre Hcarry Hflow.
  rewrite (Run_prepares _ _ _ _ _ Hprep).
  rewrite (processCommits_app _ _ _ _ _ _ Hpre).
  rewrite processCommits_cons, (processCommit_carry _ _ _ _ Hcarry), Hflow.
  reflexivity.
Qed.

(** C8: a commit classified as Drop or as Unknown adds two log lines to the
    history and nothing else (no cherry-pick, abort, lookup or patch
    application), its loop body returns no error, and the loop goes on with
    the next commit.  For Unknown the second line is the "Unkown action"
    message; nothing else keeps track of the commit. *)
Theorem processCommit_skips env repository c t :
  classify (FormatMessage env (Message c)) = Returns Drop \/
  classify (FormatMessage env (Message c)) = Returns Unknown ->
  exists line,
    (classify (FormatMessage env (Message c)) = Returns Drop /\ line = logDropping c \/
     classify (FormatMessage env (Message c)) = Returns Unknown /\
     exists action, line = logUnknown c action) /\
    processCommit env repository c t =
      (Returns None, t ++ [logProcessing env c; line]) /\
    forall rest,
      processCommits env repository (c :: rest) t =
      processCommits env repository rest (t ++ [logProcessing env c; line]).
Proof.
  intros [Hdrop|Hunknown].
  - exists (logDropping c).
    pose proof (processCommit_drop env repository c t Hdrop) as Hbody.
    split; [left; split; [exact Hdrop|reflexivity]|].
    split; [exact Hbody|].
    intros rest. rewrite processCommits_cons, Hbody. reflexivity.
  - destruct (processCommit_unknown env repository c t Hunknown) as [action Hbody].
    exists (logUnknown c action).
    split; [right; split; [exact Hunknown|exists action; reflexivity]|].
    split; [exact Hbody|].
    intros rest. rewrite processCommits_cons, Hbody. reflexivity.
Qed.

(** ** The properties on scripted runs *)

Import scenario.

Lemma carryFlow_clean_pick_witness :
  CherryPick cleanGit (picking [] carried) (Hash carried) = None /\
  carryFlow cleanEnv cleanGit carried [] =
  (Returns None, [logInitiating carried; CallCherryPick hashB]).
Proof.
  split; [reflexivity|].
  apply (carryFlow_clean_pick cleanEnv cleanGit carried []). reflexivity.
Defined.

(** C2, as stated, fails: here the cherry-pick conflicts and the status
    call fails; [carryFlow] returns the status error and the cherry-pick is
    never aborted. *)
Lemma carryFlow_status_failure_skips_abort :
  CherryPick brokenStatusGit (picking [] carried) (Hash carried) = Some conflict /\
  carryFlow brokenStatusEnv brokenStatusGit carried [] =
    (Returns (Some statusFailure),
     [logInitiating carried; CallCherryPick hashB; logProblems carried; CallStatus]) /\
  CallAbortCherryPick ∉ snd (carryFlow brokenStatusEnv brokenStatusGit carried []).
Proof.
  split; [reflexivity|]. split; [reflexivity|].
  change (snd (carryFlow brokenStatusEnv brokenStatusGit carried []))
    with [logInitiating carried; CallCherryPick hashB; logProblems carried; CallStatus].
  intros Hin. repeat (apply elem_of_cons in Hin as [Hin|Hin]; [discriminate|]).
  apply elem_of_nil in Hin. exact Hin.
Qed.

Lemma carryFlow_status_then_abort_witness :
  CherryPick conflictGit (picking [] carried) (Hash carried) = Some conflict /\
  exists r rest,
    carryFlow emptyStore conflictGit carried [] =
    (r, [logInitiating carried; CallCherryPick hashB; logProblems carried;
         CallStatus; CallAbortCherryPick] ++ rest).
Proof.
  split; [reflexivity|].
  apply (proj1 (carryFlow_status_then_abort emptyStore conflictGit carried []
                  conflict eq_refl)).
  reflexivity.
Defined.


(** The same flow on an empty store asks for manual intervention. *)
Lemma carryFlow_empty_store :
  carryFlow emptyStore conflictGit carried [] =
  (Returns (Some notExist),
   looking [] carried ++ [CallGetwd; CallStat patchB; logManual carried]).
Proof. rewrite carryFlow_cases. reflexivity. Qed.


(** C4, as stated, fails: in this run, where nothing goes wrong, the commit
    log is read by the second call, and the branch is created and the merge
    made only by the fourth and the fifth. *)
Lemma Run_reads_log_before_branching :
  snd (Run cleanEnv session []) !! 1%nat = Some CallGetCommits /\
  snd (Run cleanEnv session []) !! 3%nat =
    Some (CallCreateBranch "rebase-2026-10-30" "refs/remotes/upstream/master") /\
  snd (Run cleanEnv session []) !! 4%nat = Some (CallMerge "openshift/master") /\
  ~ (exists i name ref,
       (i < 1)%nat /\
       snd (Run cleanEnv session []) !! i = Some (CallCreateBranch name ref)).
Proof.
  repeat (split; [reflexivity|]).
  intros (i & name & ref & Hi & Hget).
  assert (i = 0%nat) as -> by lia. discriminate.
Qed.

Lemma Run_branch_and_merge_before_replay_witness :
  OpenGit cleanEnv [] (repositoryDir session) = inr cleanGit /\
  GetCommits cleanEnv [CallOpenGit (repositoryDir session)] (from session)
    (repositoryDir session) = inr queue /\
  Run cleanEnv session [] = processCommits cleanEnv cleanGit queue (prepared cleanEnv [] session).
Proof.
  split; [reflexivity|]. split; [reflexivity|].
  apply (Run_branch_and_merge_before_replay cleanEnv session [] cleanGit queue
           eq_refl eq_refl); reflexivity.
Defined.

Lemma Run_halts_on_carry_error_witness :
  prepares emptyStore session [] conflictGit ([dropped] ++ carried :: [later]) /\
  classify (FormatMessage emptyStore (Message carried)) = Returns Carry /\
  Run emptyStore session [] =
  (Returns (Some notExist),
   prepared emptyStore [] session ++
   [logProcessing emptyStore dropped; logDropping dropped;
    logProcessing emptyStore carried] ++
   looking [] carried ++ [CallGetwd; CallStat patchB; logManual carried]).
Proof.
  split; [repeat split; reflexivity|]. split; [reflexivity|].
  apply (Run_halts_on_carry_error emptyStore session [] conflictGit
           [dropped] carried [later]
           (prepared emptyStore [] session ++
              [logProcessing emptyStore dropped; logDropping dropped])).
  - repeat split; reflexivity.
  - reflexivity.
  - reflexivity.
  - reflexivity.
Defined.

Lemma processCommit_skips_witness :
  classify (FormatMessage cleanEnv (Message dropped)) = Returns Drop /\
  exists line,
    processCommit cleanEnv cleanGit dropped [] =
    (Returns None, [logProcessing cleanEnv dropped; line]).
Proof.
  split; [reflexivity|].
  destruct (processCommit_skips cleanEnv cleanGit dropped [] (or_introl eq_refl))
    as (line & _ & Hbody & _).
  exists line. exact Hbody.
Defined.

(** A commit whose tag is the bare word [carry] is skipped as Unknown. *)
Lemma processCommit_mistagged :
  processCommit cleanEnv cleanGit mistagged [] =
  (Returns None, [logProcessing cleanEnv mistagged; logUnknown mistagged "carry"]).
Proof. reflexivity. Qed.

(** A commit without a tag stops the run with a panic (see C1). *)
Lemma Run_panics_on_untagged_commit :
  fst (Run (fakeEnv cleanGit [dropped; mkCommit hashC "Fix typo in README"; carried] [])
           session []) = Panics "index out of range".
Proof. reflexivity. Qed.

(** ** Package [git]: [CheckRemotes] and [Log] *)


Lemma HasPrefix_append s sub :
  strings.HasPrefix s sub = true <-> exists post, s = sub +:+ post.
Proof.
  revert s. induction sub as [|a sub IH]; intros s.
  - split; [intros _; exists s; reflexivity|intros _; destruct s; reflexivity].
  - destruct s as [|b s].
    + split; [discriminate|]. intros [post Hpost]. discriminate.
    + change (strings.HasPrefix (String b s) (String a sub))
        with (if Ascii.eqb a b then strings.HasPrefix s sub else false).
      destruct (Ascii.eqb_spec a b) as [->|Hne].
      * rewrite IH. split; intros [post Hpost]; exists post.
        -- rewrite append_cons, Hpost. reflexivity.
        -- rewrite append_cons in Hpost. injection Hpost as ->. reflexivity.
      * split; [discriminate|]. intros [post Hpost].
        rewrite append_cons in Hpost. congruence.
Qed.

Lemma Contains_unfold s sub :
  strings.Contains s sub =
  strings.HasPrefix s sub ||
  match s with EmptyString => false | String _ s' => strings.Contains s' sub end.
Proof. destruct s; reflexivity. Qed.

(** [strings.Contains] decides the occurrence of a substring. *)
Lemma Contains_occursIn s sub : strings.Contains s sub = true <-> occursIn sub s.
Proof.
  unfold occursIn. induction s as [|c s IH]; rewrite Contains_unfold.
  - rewrite orb_false_r, HasPrefix_append. split.
    + intros [post Hpost]. exists EmptyString, post. exact Hpost.
    + intros ([|c pre] & post & Heq); [|discriminate].
      exists post. exact Heq.
  - rewrite orb_true_iff, HasPrefix_append, IH. split.
    + intros [[post Hpost]|(pre & post & Heq)].
      * exists EmptyString, post. exact Hpost.
      * exists (String c pre), post. rewrite append_cons, Heq. reflexivity.
    + intros ([|c' pre] & post & Heq).
      * left. exists post. exact Heq.
      * right. rewrite append_cons in Heq. injection Heq as -> ->.
        exists pre, post. reflexivity.
Qed.

Lemma fetchURLForRemote_firstURL repository name :
  fetchURLForRemote repository name =
  match firstURL repository name with
  | None => inl ErrRemoteNotFound
  | Some None => inl (Errorf "no fetch URLs, remote=%s" [name])
  | Some (Some url) => inr url
  end.
Proof.
  unfold fetchURLForRemote, firstURL.
  destruct (Remotes repository !! name) as [config|]; [|reflexivity].
  cbn. destruct (URLs config); reflexivity.
Qed.

Lemma firstURL_Some repository name url :
  firstURL repository name = Some (Some url) <->
  exists config rest,
    Remotes repository !! name = Some config /\ URLs config = url :: rest.
Proof.
  unfold firstURL. destruct (Remotes repository !! name) as [config|]; cbn.
  - destruct (URLs config) as [|u rest] eqn:Hurls; cbn.
    + split; [discriminate|]. intros (config' & rest & [= <-] & Heq). congruence.
    + split.
      * intros [= ->]. exists config, rest. split; [reflexivity|exact Hurls].
      * intros (config' & rest' & [= <-] & Heq). congruence.
  - split; [discriminate|]. intros (config & rest & Hc & _). discriminate.
Qed.

(** [CheckRemotes] by what it reads: the first URL of each remote. *)
Lemma CheckRemotes_cases repository t :
  fst (CheckRemotes repository t) = Returns None <->
  exists urlO urlU,
    firstURL repository "openshift" = Some (Some urlO) /\
    strings.Contains urlO "github.com:openshift/kubernetes.git" = true /\
    firstURL repository "upstream" = Some (Some urlU) /\
    strings.Contains urlU "github.com:kubernetes/kubernetes.git" = true.
Proof.
  unfold CheckRemotes, expectedRemotes. cbn [checkEach].
  rewrite !fetchURLForRemote_firstURL.
  destruct (firstURL repository "openshift") as [[urlO|]|].
  2,3: split; [discriminate|]; intros (? & ? & [=] & _).
  destruct (strings.Contains urlO _) eqn:HO; cbn [negb].
  2: { split; [discriminate|]. intros (? & ? & [= <-] & ? & _). congruence. }
  unfold bind, klog, ret.
  destruct (firstURL repository "upstream") as [[urlU|]|].
  2,3: split; [discriminate|]; intros (? & ? & _ & _ & [=] & _).
  destruct (strings.Contains urlU _) eqn:HU; cbn [negb].
  2: { split; [discriminate|]. intros (? & ? & _ & _ & [= <-] & ?). congruence. }
  split; [|reflexivity]. intros _. exists urlO, urlU. repeat split; assumption.
Qed.

(** C10: [CheckRemotes] returns nil exactly when the remotes [openshift] and
    [upstream] are both configured, each with at least one URL, and the
    first URL of the former contains [github.com:openshift/kubernetes.git]
    and the first URL of the latter [github.com:kubernetes/kubernetes.git];
    two repositories that agree on the first URL of both remotes get the
    same answer and the same log lines, whatever their further URLs. *)
Theorem CheckRemotes_succeeds_iff repository t :
  (fst (CheckRemotes repository t) = Returns None <->
   exists o urlO restO u urlU restU,
     Remotes repository !! "openshift" = Some o /\ URLs o = urlO :: restO /\
     occursIn "github.com:openshift/kubernetes.git" urlO /\
     Remotes repository !! "upstream" = Some u /\ URLs u = urlU :: restU /\
     occursIn "github.com:kubernetes/kubernetes.git" urlU) /\
  (forall repository',
     firstURL repository' "openshift" = firstURL repository "openshift" ->
     firstURL repository' "upstream" = firstURL repository "upstream" ->
     CheckRemotes repository' t = CheckRemotes repository t).
Proof.
  split.
  - rewrite CheckRemotes_cases. split.
    + intros (urlO & urlU & HO & HcO & HU & HcU).
      apply firstURL_Some in HO as (o & restO & HO & HurlsO).
      apply firstURL_Some in HU as (u & restU & HU & HurlsU).
      apply Contains_occursIn in HcO, HcU.
      exists o, urlO, restO, u, urlU, restU. repeat split; assumption.
    + intros (o & urlO & restO & u & urlU & restU & HO & HurlsO & HcO & HU & HurlsU & HcU).
      exists urlO, urlU. rewrite <- !Contains_occursIn in *.
      repeat split; try assumption; apply firstURL_Some; eauto.
  - intros repository' HO HU.
    unfold CheckRemotes, expectedRemotes. cbn [checkEach].
    rewrite !fetchURLForRemote_firstURL, HO, HU. reflexivity.
Qed.

(** A configured repository passes; its second [openshift] URL is not read. *)
Lemma CheckRemotes_scenario :
  CheckRemotes scenario.repo [] =
  (Returns None,
   [Klog Info 0 "git remote setup properly"
      ["remote"; "openshift"; "fetch-url"; "git@github.com:openshift/kubernetes.git"];
    Klog Info 0 "git remote setup properly"
      ["remote"; "upstream"; "fetch-url"; "git@github.com:kubernetes/kubernetes.git"]]).
Proof. vm_compute. reflexivity. Qed.

Lemma collect_all commits stopAtHash tail acc :
  Forall (fun c => Hash c <> stopAtHash) commits -> atEnd tail ->
  collect ((inr <$> commits) ++ tail) stopAtHash acc = inr (acc ++ commits).
Proof.
  intros Hall Hend. revert acc.
  induction Hall as [|c commits Hc Hall IH]; intros acc.
  - rewrite app_nil_r. destruct Hend as [->|[rest ->]]; reflexivity.
  - cbn. apply String.eqb_neq in Hc. rewrite Hc, IH, <- app_assoc. reflexivity.
Qed.

Lemma collect_stop pre c tail stopAtHash acc :
  Forall (fun c => Hash c <> stopAtHash) pre -> Hash c = stopAtHash ->
  collect ((inr <$> pre) ++ inr c :: tail) stopAtHash acc = inr (acc ++ pre ++ [c]).
Proof.
  intros Hall Hc. revert acc.
  induction Hall as [|c' pre Hc' Hall IH]; intros acc.
  - cbn. apply String.eqb_eq in Hc. rewrite Hc. reflexivity.
  - cbn. apply String.eqb_neq in Hc'. rewrite Hc', IH, <- app_assoc. reflexivity.
Qed.

(** C9: when the repository hands out an iterator, [Log] returns the
    commits in the order the iterator yields them.  If one of them has the
    hash [stopAtHash], the first such commit is the last element of the
    result; if none has and the iterator ends, the result is the whole log
    and no error. *)
Theorem Log_stops_inclusively NewHash repository from stopAtHash iter :
  RepoLog repository (logOptions NewHash from) = inr iter ->
  (forall pre c tail,
     iter = (inr <$> pre) ++ inr c :: tail ->
     Forall (fun c' => Hash c' <> stopAtHash) pre -> Hash c = stopAtHash ->
     Log NewHash repository from stopAtHash = inr (pre ++ [c])) /\
  (forall commits tail,
     iter = (inr <$> commits) ++ tail -> atEnd tail ->
     Forall (fun c => Hash c <> stopAtHash) commits ->
     Log NewHash repository from stopAtHash = inr commits).
Proof.
  intros Hlog.
  assert (HLog : Log NewHash repository from stopAtHash = collect iter stopAtHash []).
  { unfold Log. unfold logOptions in Hlog.
    destruct (0 <? String.length from)%nat; rewrite Hlog; reflexivity. }
  split.
  - intros pre c tail -> Hpre Hc. rewrite HLog. apply (collect_stop pre c tail _ []); assumption.
  - intros commits tail -> Hend Hall. rewrite HLog. apply (collect_all commits _ tail []); assumption.
Qed.

Lemma Log_stops_inclusively_witness :
  RepoLog scenario.repo (logOptions (fun h => h) EmptyString)
    = inr (inr <$> scenario.history) /\
  Log (fun h => h) scenario.repo EmptyString scenario.hashB
    = inr [scenario.later; scenario.carried].
Proof.
  split; [reflexivity|].
  apply (proj1 (Log_stops_inclusively (fun h => h) scenario.repo EmptyString
                  scenario.hashB _ eq_refl)
           [scenario.later] scenario.carried [inr scenario.dropped]).
  - reflexivity.
  - repeat constructor. discriminate.
  - reflexivity.
Defined.

(** An error of the iterator other than [io.EOF] fails the whole call. *)
Lemma Log_iterator_error NewHash repository from stopAtHash pre msg tail :
  RepoLog repository (logOptions NewHash from)
    = inr ((inr <$> pre) ++ inl (External msg) :: tail) ->
  Forall (fun c => Hash c <> stopAtHash) pre ->
  Log NewHash repository from stopAtHash =
  inl (Errorw "iterating through commit log failed: %w" [] (External msg)).
Proof.
  intros Hlog Hall.
  assert (HLog : Log NewHash repository from stopAtHash =
                 collect ((inr <$> pre) ++ inl (External msg) :: tail) stopAtHash []).
  { unfold Log. unfold logOptions in Hlog.
    destruct (0 <? String.length from)%nat; rewrite Hlog; reflexivity. }
  rewrite HLog. clear Hlog HLog. generalize (@nil Commit).
  induction Hall as [|c pre Hc Hall IH]; intros acc; [reflexivity|].
  cbn. apply String.eqb_neq in Hc. rewrite Hc. apply IH.
Qed.

(** * Further properties of the code *)

Import replay gitwords fixtures.

(** ** The tag parser and the numeric placeholder *)

(** X1: [actionFromMessage] returns [action] exactly when [action] is the tag of
    the leftmost [UPSTREAM: <action>:] match: a non-empty word over [[<>\w]];
    the empty string of its first [return] is never produced. *)
Theorem actionFromMessage_returns_first_tag message action :
  actionFromMessage message = Returns action <-> firstTag message action.
Proof.
  split; [|apply actionFromMessage_firstTag].
  intros Ha. destruct (tagged_or_untagged message) as [Hun|[tag Ht]].
  - rewrite (actionFromMessage_untagged _ Hun) in Ha. discriminate.
  - rewrite (actionFromMessage_firstTag _ _ Ht) in Ha. injection Ha as <-. exact Ht.
Qed.

Lemma digit_Some c d :
  strconv.digit c = Some d <->
  isDigit c = true /\ d = Z.of_nat (nat_of_ascii c) - 48.
Proof.
  unfold strconv.digit, isDigit.
  destruct (Z.leb_spec 48 (Z.of_nat (nat_of_ascii c)));
    destruct (Z.leb_spec (Z.of_nat (nat_of_ascii c)) 57);
    destruct (Nat.leb_spec 48 (nat_of_ascii c));
    destruct (Nat.leb_spec (nat_of_ascii c) 57); cbn; try lia;
    (split; [intros [= <-]; split; reflexivity || discriminate
            |intros [? ->]; reflexivity || discriminate]).
Qed.

Lemma digits_Some s acc n :
  strconv.digits s acc = Some n <->
  allChars isDigit s = true /\
  n = acc * 10 ^ Z.of_nat (String.length s) + decimalValue s.
Proof.
  revert acc. induction s as [|c s IH]; intros acc.
  - cbn. split; [intros [= <-]; split; [reflexivity|lia]|intros [_ ->]; f_equal; lia].
  - cbn [strconv.digits allChars decimalValue String.length].
    rewrite Nat2Z.inj_succ, Z.pow_succ_r by lia.
    destruct (strconv.digit c) as [d|] eqn:Hd.
    + apply digit_Some in Hd as [Hc ->]. rewrite Hc, IH. cbn [andb].
      split; intros [Hall ->]; (split; [exact Hall|ring]).
    + destruct (isDigit c) eqn:Hc.
      * assert (strconv.digit c = Some (Z.of_nat (nat_of_ascii c) - 48)) as Hd'
          by (apply digit_Some; split; [exact Hc|reflexivity]).
        congruence.
      * cbn. split; [discriminate|intros [[=] _]].
Qed.

Lemma decimalValue_bounds s :
  allChars isDigit s = true ->
  0 <= decimalValue s < 10 ^ Z.of_nat (String.length s).
Proof.
  induction s as [|c s IH]; [cbn; lia|].
  cbn [allChars decimalValue String.length]. intros [Hc Hs]%andb_true_iff.
  specialize (IH Hs). rewrite Nat2Z.inj_succ, Z.pow_succ_r by lia.
  assert (0 <= Z.of_nat (nat_of_ascii c) - 48 <= 9).
  { unfold isDigit in Hc. apply andb_true_iff in Hc as [H1 H2].
    apply Nat.leb_le in H1, H2. lia. }
  nia.
Qed.

Lemma isActionChar_not_sign c :
  isActionChar c = true -> Ascii.eqb c "-" = false /\ Ascii.eqb c "+" = false.
Proof.
  intros Hc. split.
  - destruct (Ascii.eqb_spec c "-") as [->|]; [|reflexivity]. vm_compute in Hc. discriminate.
  - destruct (Ascii.eqb_spec c "+") as [->|]; [|reflexivity]. vm_compute in Hc. discriminate.
Qed.

(** On a word over [[<>\w]] [strconv.Atoi] succeeds exactly on the decimal
    numbers within the range of [int]. *)
Lemma Atoi_tag tag :
  tag <> EmptyString -> allChars isActionChar tag = true ->
  (exists n, strconv.Atoi tag = Some n) <-> numericTag tag.
Proof.
  intros Hne Hall. destruct tag as [|c s]; [congruence|].
  pose proof Hall as Hc. cbn [allChars] in Hc. apply andb_true_iff in Hc as [Hc _].
  destruct (isActionChar_not_sign c Hc) as [Hm Hp].
  unfold strconv.Atoi, numericTag. rewrite Hm, Hp.
  destruct (strconv.digits (String c s) 0) as [n|] eqn:Hd.
  - apply digits_Some in Hd as [Hdig ->].
    pose proof (decimalValue_bounds _ Hdig) as Hb.
    replace (0 * 10 ^ Z.of_nat (String.length (String c s)) + decimalValue (String c s))
      with (decimalValue (String c s)) by ring.
    assert (strconv.minInt <= decimalValue (String c s))
      by (transitivity 0; [vm_compute; discriminate|exact (proj1 Hb)]).
    destruct (Z.leb_spec strconv.minInt (decimalValue (String c s))); [|lia].
    destruct (Z.leb_spec (decimalValue (String c s)) strconv.maxInt); cbn [andb].
    + split; [intros _; split; assumption|intros _; eexists; reflexivity].
    + split; [intros [? [=]]|intros [_ ?]; lia].
  - split; [intros [? [=]]|]. intros [Hdig _].
    assert (strconv.digits (String c s) 0 = Some (0 * 10 ^ Z.of_nat (String.length (String c s)) + decimalValue (String c s)))
      by (apply digits_Some; split; [exact Hdig|reflexivity]).
    congruence.
Qed.

Lemma firstTag_word message tag :
  firstTag message tag -> tag <> EmptyString /\ allChars isActionChar tag = true.
Proof. intros (pre & s & _ & (Hne & Hall & _) & _). split; assumption. Qed.

Lemma numericTag_not_keyword tag :
  numericTag tag -> tag <> "<carry>" /\ tag <> "<drop>".
Proof.
  intros [Hdig _]. split; intros ->; vm_compute in Hdig; discriminate.
Qed.

(** X2: What the first tag of a message makes of it: Carry for [<carry>] and
    for a decimal number within the range of [int], Drop for [<drop>] only,
    Unknown for every other tag. *)
Theorem classify_by_tag_exactly message tag :
  firstTag message tag ->
  (classify message = Returns Carry <-> tag = "<carry>" \/ numericTag tag) /\
  (classify message = Returns Drop <-> tag = "<drop>") /\
  (classify message = Returns Unknown <->
   tag <> "<carry>" /\ tag <> "<drop>" /\ ~ numericTag tag).
Proof.
  intros Ht. rewrite (classify_firstTag _ _ Ht).
  destruct (firstTag_word _ _ Ht) as [Hne Hall].
  pose proof (Atoi_tag tag Hne Hall) as Hnum.
  unfold foldNumeric. destruct (strconv.Atoi tag) as [n|] eqn:Hatoi.
  - assert (Hn : numericTag tag) by (apply Hnum; eexists; reflexivity).
    destruct (numericTag_not_keyword _ Hn) as [Hc Hd].
    change (switchAction "<carry>") with Carry.
    split; [|split].
    + split; [intros _; right; exact Hn|reflexivity].
    + split; [discriminate|intros ->; congruence].
    + split; [discriminate|intros (_ & _ & Hnn); destruct (Hnn Hn)].
  - assert (Hn : ~ numericTag tag) by (intros H; apply Hnum in H as [? [=]]).
    destruct (String.eqb_spec tag "<carry>") as [->|Hc];
      [|destruct (String.eqb_spec tag "<drop>") as [->|Hd]].
    + change (switchAction "<carry>") with Carry.
      split; [|split].
      * split; [intros _; left; reflexivity|reflexivity].
      * split; discriminate.
      * split; [discriminate|intros (H & _); congruence].
    + change (switchAction "<drop>") with Drop.
      split; [|split].
      * split; [discriminate|intros [H|H]; [discriminate|tauto]].
      * split; reflexivity.
      * split; [discriminate|intros (_ & H & _); congruence].
    + rewrite switchAction_other by assumption.
      split; [|split].
      * split; [discriminate|intros [H|H]; [congruence|tauto]].
      * split; [discriminate|congruence].
      * split; [intros _; repeat split; assumption|reflexivity].
Qed.

Lemma classify_by_tag_exactly_witness :
  firstTag "UPSTREAM: 128371: fix flake" "128371" /\
  classify "UPSTREAM: 128371: fix flake" = Returns Carry.
Proof.
  assert (H : firstTag "UPSTREAM: 128371: fix flake" "128371")
    by (apply (firstTag_at_front "128371" " fix flake"); [discriminate|reflexivity]).
  split; [exact H|].
  apply (proj1 (classify_by_tag_exactly _ _ H)).
  right. split; [reflexivity|]. vm_compute. discriminate.
Defined.

(** X3: A first tag of one to eighteen decimal digits, such as an upstream pull
    request number, is always handled as a carry. *)
Theorem classify_short_number message tag :
  firstTag message tag -> allChars isDigit tag = true ->
  (String.length tag <= 18)%nat ->
  classify message = Returns Carry.
Proof.
  intros Ht Hdig Hlen. rewrite (classify_firstTag _ _ Ht).
  destruct (firstTag_word _ _ Ht) as [Hne Hall].
  assert (Hn : numericTag tag).
  { split; [exact Hdig|]. pose proof (decimalValue_bounds _ Hdig) as Hb.
    assert (10 ^ Z.of_nat (String.length tag) <= 10 ^ 18)
      by (apply Z.pow_le_mono_r; lia).
    assert (10 ^ 18 <= strconv.maxInt) by (vm_compute; discriminate).
    lia. }
  apply (Atoi_tag tag Hne Hall) in Hn as [n Hn].
  unfold foldNumeric. rewrite Hn. reflexivity.
Qed.

Lemma classify_short_number_witness :
  firstTag "UPSTREAM: 42: backport" "42" /\
  classify "UPSTREAM: 42: backport" = Returns Carry.
Proof.
  assert (H : firstTag "UPSTREAM: 42: backport" "42")
    by (apply (firstTag_at_front "42" " backport"); [discriminate|reflexivity]).
  split; [exact H|].
  apply (classify_short_number _ _ H); [reflexivity|cbn; lia].
Defined.

(** ** The carry flow and the run: error paths and order of replay *)

(** X4: [carryFlow] returns nil in two ways only: the cherry-pick succeeded, or
    it failed and status, abort, working directory, patch lookup and patch
    application all succeeded. *)
Theorem carryFlow_succeeds_iff env repository commit t :
  fst (carryFlow env repository commit t) = Returns None <->
  CherryPick repository (picking t commit) (Hash commit) = None \/
  exists cwd,
    Status repository (conflicted t commit) = None /\
    AbortCherryPick repository (aborting t commit) = None /\
    Getwd env (looking t commit) = inr cwd /\
    Stat env (statting t commit) (carryPath env cwd commit) = None /\
    git.Apply repository (applying t commit (carryPath env cwd commit))
      (carryPath env cwd commit) = None.
Proof.
  rewrite carryFlow_cases.
  destruct (CherryPick repository _ _) as [e|]; [|split; [left|]; reflexivity].
  destruct (Status repository _) as [e1|].
  { split; [discriminate|]. intros [[=]|(cwd & [=] & _)]. }
  destruct (AbortCherryPick repository _) as [e2|].
  { split; [discriminate|]. intros [[=]|(cwd & _ & [=] & _)]. }
  destruct (Getwd env _) as [e3|cwd].
  { split; [discriminate|]. intros [[=]|(cwd & _ & _ & [=] & _)]. }
  cbv zeta. destruct (Stat env _ _) as [e4|] eqn:Hstat.
  { split; [discriminate|]. intros [[=]|(cwd' & _ & _ & [= <-] & Hs & _)]. congruence. }
  cbn [fst]. split.
  - intros [= Happly]. right. exists cwd. repeat split; assumption.
  - intros [[=]|(cwd' & _ & _ & [= <-] & _ & Happly)]. rewrite Happly. reflexivity.
Qed.

(** X5: The two remaining error paths of [carryFlow]: when the abort of the
    cherry-pick fails its error is returned and the patch store is not
    consulted; when [os.Getwd] fails the commit is reported for manual
    intervention and neither [os.Stat] nor [Apply] is called. *)
Theorem carryFlow_before_lookup env repository commit t err :
  CherryPick repository (picking t commit) (Hash commit) = Some err ->
  Status repository (conflicted t commit) = None ->
  (forall e, AbortCherryPick repository (aborting t commit) = Some e ->
     carryFlow env repository commit t =
     (Returns (Some e), conflicted t commit ++ [CallStatus; CallAbortCherryPick])) /\
  (forall e, AbortCherryPick repository (aborting t commit) = None ->
     Getwd env (looking t commit) = inl e ->
     carryFlow env repository commit t =
     (Returns (Some e), looking t commit ++ [CallGetwd; logManual commit])).
Proof.
  intros Hpick Hstatus. split.
  - intros e Habort. rewrite carryFlow_cases, Hpick, Hstatus, Habort.
    unfold aborting. flatten_trace. reflexivity.
  - intros e Habort Hcwd. rewrite carryFlow_cases, Hpick, Hstatus, Habort, Hcwd.
    unfold statting. flatten_trace. reflexivity.
Qed.

Lemma carryFlow_before_lookup_witness :
  CherryPick conflictGit (picking [] carried) (Hash carried) = Some conflict /\
  Status conflictGit (conflicted [] carried) = None /\
  carryFlow noCwdEnv conflictGit carried [] =
  (Returns (Some notExist), looking [] carried ++ [CallGetwd; logManual carried]).
Proof.
  split; [reflexivity|]. split; [reflexivity|].
  apply (proj2 (carryFlow_before_lookup noCwdEnv conflictGit carried [] conflict
                  eq_refl eq_refl)); reflexivity.
Defined.


(** X7: [Run] gives up before it touches any branch when the repository cannot
    be opened (the error is returned as it is, after that single call) or
    when the commit log cannot be read (the error is wrapped by
    ["Error reading carries: %w"]). *)
Theorem Run_fails_before_branching env a t :
  (forall err,
     OpenGit env t (repositoryDir a) = inl err ->
     Run env a t = (Returns (Some err), t ++ [CallOpenGit (repositoryDir a)])) /\
  (forall repository err,
     OpenGit env t (repositoryDir a) = inr repository ->
     GetCommits env (t ++ [CallOpenGit (repositoryDir a)]) (from a) (repositoryDir a)
       = inl err ->
     Run env a t =
     (Returns (Some (Errorw "Error reading carries: %w" [] err)), logRead t a)).
Proof.
  split.
  - intros err Hopen. unfold Run, bind, call, ret. rewrite Hopen. reflexivity.
  - intros repository err Hopen Hlog. unfold Run, bind, call, ret, logRead.
    rewrite Hopen, Hlog. flatten_trace. reflexivity.
Qed.

Lemma picks_app t1 t2 : picks (t1 ++ t2) = picks t1 ++ picks t2.
Proof. apply omap_app. Qed.

Lemma carryFlow_picks env repository commit t :
  exists r t',
    carryFlow env repository commit t = (Returns r, t') /\
    picks t' = picks t ++ [Hash commit].
Proof.
  rewrite carryFlow_cases.
  unfold applying, statting, looking, aborting, conflicted, picking.
  destruct (CherryPick repository _ _) as [e|];
    [destruct (Status repository _) as [e1|];
     [|destruct (AbortCherryPick repository _) as [e2|];
       [|destruct (Getwd env _) as [e3|cwd];
         [|cbv zeta; destruct (Stat env _ _) as [e4|]]]]|];
    (eexists _, _; split; [reflexivity|]);
    flatten_trace; rewrite picks_app; reflexivity.
Qed.

Lemma isCarried_true env c :
  isCarried env c = true <-> classify (FormatMessage env (Message c)) = Returns Carry.
Proof.
  unfold isCarried.
  destruct (classify (FormatMessage env (Message c))) as [[| |]|p];
    split; congruence.
Qed.

(** The loop body cherry-picks the commit's hash once when the commit is
    carried, and nothing otherwise, however it ends. *)
Lemma processCommit_picks env repository c t :
  picks (snd (processCommit env repository c t)) =
  picks t ++ (if isCarried env c then [Hash c] else []).
Proof.
  destruct (isCarried env c) eqn:Hcar.
  - apply isCarried_true in Hcar. rewrite (processCommit_carry _ _ _ _ Hcar).
    destruct (carryFlow_picks env repository c (t ++ [logProcessing env c]))
      as (r & t' & Hflow & Hp).
    rewrite Hflow. cbn [snd]. rewrite Hp, picks_app. cbn. rewrite app_nil_r. reflexivity.
  - unfold isCarried in Hcar.
    destruct (classify (FormatMessage env (Message c))) as [[| |]|p] eqn:Hcl;
      try discriminate.
    + rewrite (processCommit_drop _ _ _ _ Hcl). cbn [snd].
      rewrite picks_app. cbn. reflexivity.
    + destruct (processCommit_unknown env repository c t Hcl) as [action ->].
      cbn [snd]. rewrite picks_app. cbn. reflexivity.
    + unfold classify in Hcl.
      destruct (actionFromMessage (FormatMessage env (Message c))) as [?|p'] eqn:Ha;
        [discriminate|].
      unfold processCommit, bind, klog, eval. rewrite Ha. cbn [snd].
      rewrite picks_app. cbn. reflexivity.
Qed.

Lemma processCommits_picks env repository commits t :
  exists k,
    (k <= length commits)%nat /\
    picks (snd (processCommits env repository commits t)) =
      picks t ++ (Hash <$> List.filter (isCarried env) (take k commits)) /\
    (fst (processCommits env repository commits t) = Returns None ->
     k = length commits).
Proof.
  revert t. induction commits as [|c commits IH]; intros t.
  - exists 0%nat. cbn. rewrite app_nil_r. repeat split; reflexivity || lia.
  - rewrite processCommits_cons.
    pose proof (processCommit_picks env repository c t) as Hc.
    destruct (processCommit env repository c t) as [[[e|]|p] t'] eqn:Hbody;
      cbn [snd] in Hc.
    + exists 1%nat. cbn [length take List.filter fst snd].
      split; [lia|]. split; [|discriminate].
      rewrite Hc. destruct (isCarried env c); reflexivity.
    + destruct (IH t') as (k & Hk & Hpicks & Hdone).
      exists (S k). cbn [length take List.filter].
      split; [lia|]. split.
      * rewrite Hpicks, Hc, <- app_assoc. f_equal.
        destruct (isCarried env c); reflexivity.
      * intros Hnone. rewrite (Hdone Hnone). reflexivity.
    + exists 1%nat. cbn [length take List.filter fst snd].
      split; [lia|]. split; [|discriminate].
      rewrite Hc. destruct (isCarried env c); reflexivity.
Qed.

(** X8: [Run] replays in queue order and nothing else: the hashes it
    cherry-picks are those of the carried commits among the first [k] of the
    queue, in the order of the queue and once each; when [Run] returns nil
    all of the queue was processed. *)
Theorem Run_replays_in_queue_order env a t repository commits :
  prepares env a t repository commits ->
  exists k,
    (k <= length commits)%nat /\
    picks (snd (Run env a t)) =
      picks t ++ (Hash <$> List.filter (isCarried env) (take k commits)) /\
    (fst (Run env a t) = Returns None -> k = length commits).
Proof.
  intros Hprep. rewrite (Run_prepares _ _ _ _ _ Hprep).
  destruct (processCommits_picks env repository commits (prepared env t a))
    as (k & Hk & Hpicks & Hdone).
  exists k. split; [exact Hk|]. split; [|exact Hdone].
  rewrite Hpicks. f_equal.
  unfold prepared, merging, branching, logRead. rewrite !picks_app. cbn.
  rewrite !app_nil_r. reflexivity.
Qed.

Lemma Run_replays_in_queue_order_witness :
  prepares patchedStore session [] conflictGit queue /\
  picks (snd (Run patchedStore session [])) = [hashB; hashC].
Proof.
  assert (H : prepares patchedStore session [] conflictGit queue)
    by (repeat split; reflexivity).
  split; [exact H|].
  destruct (Run_replays_in_queue_order patchedStore session [] conflictGit queue H)
    as (k & Hk & Hpicks & Hdone).
  rewrite Hpicks, (Hdone eq_refl). reflexivity.
Defined.

(** X9: When every commit of the queue is classified as Drop or Unknown, [Run]
    returns nil and, once the branch is prepared, only writes log lines: no
    cherry-pick, status, abort, lookup or patch application is made. *)
Theorem Run_only_logs_skipped_commits env a t repository commits :
  prepares env a t repository commits ->
  Forall (skipped env) commits ->
  exists lines,
    Run env a t = (Returns None, prepared env t a ++ lines) /\
    Forall isLogLine lines.
Proof.
  intros Hprep Hall. rewrite (Run_prepares _ _ _ _ _ Hprep).
  generalize (prepared env t a). clear Hprep.
  induction Hall as [|c commits Hc Hall IH]; intros t0.
  - exists []. rewrite app_nil_r. split; [reflexivity|constructor].
  - rewrite processCommits_cons.
    assert (exists line, isLogLine line /\
              processCommit env repository c t0 =
              (Returns None, t0 ++ [logProcessing env c; line])) as (line & Hline & ->).
    { destruct Hc as [Hd|Hu].
      - exists (logDropping c). split; [exact I|]. apply processCommit_drop, Hd.
      - destruct (processCommit_unknown env repository c t0 Hu) as [action Hbody].
        exists (logUnknown c action). split; [exact I|exact Hbody]. }
    destruct (IH (t0 ++ [logProcessing env c; line])) as (lines & -> & Hlines).
    exists ([logProcessing env c; line] ++ lines).
    rewrite <- app_assoc. split; [reflexivity|].
    repeat constructor; assumption.
Qed.

Lemma Run_only_logs_skipped_commits_witness :
  prepares idleEnv session [] cleanGit
    idleQueue /\
  Forall (skipped idleEnv) idleQueue /\
  fst (Run idleEnv session []) = Returns None.
Proof.
  assert (H1 : prepares idleEnv session [] cleanGit
                 idleQueue) by (repeat split; reflexivity).
  assert (H2 : Forall (skipped idleEnv)
                 idleQueue).
  { unfold idleQueue. constructor; [left; reflexivity|].
    constructor; [right; reflexivity|]. constructor. }
  split; [exact H1|]. split; [exact H2|].
  destruct (Run_only_logs_skipped_commits _ _ _ _ _ H1 H2) as (lines & -> & _).
  reflexivity.
Defined.

(** ** Package [git]: the marker commit and the logs *)

Lemma Contains_false s sub : strings.Contains s sub = false <-> ~ occursIn sub s.
Proof.
  rewrite <- Contains_occursIn. destruct (strings.Contains s sub); split; congruence.
Qed.

Lemma findMarker_found iter marker c :
  findMarker iter marker = inr c <->
  exists pre tail,
    iter = (inr <$> pre) ++ inr c :: tail /\
    Forall (fun c' => ~ holdsMarker marker c') pre /\ holdsMarker marker c.
Proof.
  unfold holdsMarker. induction iter as [|[e|c0] iter IH]; cbn [findMarker].
  - split; [discriminate|]. intros ([|? ?] & tail & Heq & _); discriminate.
  - split; [discriminate|]. intros ([|? ?] & tail & Heq & _); discriminate.
  - destruct (strings.Contains (Message c0) marker) eqn:Hc0.
    + apply Contains_occursIn in Hc0. split.
      * intros [= <-]. exists [], iter. repeat split; [constructor|exact Hc0].
      * intros ([|c1 pre] & tail & Heq & Hpre & Hc).
        -- injection Heq as -> _. reflexivity.
        -- injection Heq as -> _. apply Forall_cons in Hpre as [Hno _].
           destruct (Hno Hc0).
    + apply Contains_false in Hc0. rewrite IH. split.
      * intros (pre & tail & -> & Hpre & Hc). exists (c0 :: pre), tail.
        repeat split; [constructor; assumption|exact Hc].
      * intros ([|c1 pre] & tail & Heq & Hpre & Hc).
        -- injection Heq as -> _. destruct (Hc0 Hc).
        -- injection Heq as -> ->. apply Forall_cons in Hpre as [_ Hpre].
           exists pre, tail. repeat split; assumption.
Qed.

Lemma FindRebaseMarkerCommit_iter NewHash repository from marker iter :
  RepoLog repository (logOptions NewHash from) = inr iter ->
  FindRebaseMarkerCommit NewHash repository from marker = findMarker iter marker.
Proof.
  intros Hlog. unfold FindRebaseMarkerCommit. unfold logOptions in Hlog.
  destruct (0 <? String.length from)%nat; rewrite Hlog; reflexivity.
Qed.

Lemma Log_iter NewHash repository from stopAtHash iter :
  RepoLog repository (logOptions NewHash from) = inr iter ->
  Log NewHash repository from stopAtHash = collect iter stopAtHash [].
Proof.
  intros Hlog. unfold Log. unfold logOptions in Hlog.
  destruct (0 <? String.length from)%nat; rewrite Hlog; reflexivity.
Qed.

(** X10: [FindRebaseMarkerCommit] returns a commit exactly when it is the first
    commit of the log whose message holds the marker, no error of the
    iterator coming before it. *)
Theorem FindRebaseMarkerCommit_first_match NewHash repository from marker iter c :
  RepoLog repository (logOptions NewHash from) = inr iter ->
  FindRebaseMarkerCommit NewHash repository from marker = inr c <->
  exists pre tail,
    iter = (inr <$> pre) ++ inr c :: tail /\
    Forall (fun c' => ~ holdsMarker marker c') pre /\ holdsMarker marker c.
Proof.
  intros Hlog. rewrite (FindRebaseMarkerCommit_iter _ _ _ _ _ Hlog).
  apply findMarker_found.
Qed.

Lemma FindRebaseMarkerCommit_first_match_witness :
  RepoLog markedRepo (logOptions (fun h => h) EmptyString)
    = inr (inr <$> [later; carried; marked]) /\
  FindRebaseMarkerCommit (fun h => h) markedRepo EmptyString "Rebase marker" = inr marked.
Proof.
  split; [reflexivity|].
  apply (proj2 (FindRebaseMarkerCommit_first_match (fun h => h) markedRepo EmptyString
                  "Rebase marker" _ marked eq_refl)).
  exists [later; carried], []. split; [reflexivity|]. split.
  - constructor; [apply Contains_false; reflexivity|].
    constructor; [apply Contains_false; reflexivity|]. constructor.
  - apply Contains_occursIn. reflexivity.
Defined.

(** X11: Unlike [Log], [FindRebaseMarkerCommit] fails at the end of the history:
    when no commit of the log holds the marker, the error wraps [io.EOF]. *)
Theorem FindRebaseMarkerCommit_no_marker NewHash repository from marker commits tail :
  RepoLog repository (logOptions NewHash from) = inr ((inr <$> commits) ++ tail) ->
  atEnd tail ->
  Forall (fun c => ~ holdsMarker marker c) commits ->
  FindRebaseMarkerCommit NewHash repository from marker =
  inl (Errorw "failed to find commit with marker: %s - %w" [marker] EOF).
Proof.
  intros Hlog Hend Hall. rewrite (FindRebaseMarkerCommit_iter _ _ _ _ _ Hlog).
  clear Hlog. induction Hall as [|c commits Hc Hall IH].
  - destruct Hend as [->|[rest ->]]; reflexivity.
  - cbn. apply Contains_false in Hc. rewrite Hc. apply IH.
Qed.

Lemma FindRebaseMarkerCommit_no_marker_witness :
  RepoLog scenario.repo (logOptions (fun h => h) EmptyString)
    = inr ((inr <$> history) ++ []) /\
  FindRebaseMarkerCommit (fun h => h) scenario.repo EmptyString "Rebase marker" =
  inl (Errorw "failed to find commit with marker: %s - %w" ["Rebase marker"] EOF).
Proof.
  split; [reflexivity|].
  apply (FindRebaseMarkerCommit_no_marker (fun h => h) scenario.repo EmptyString
           "Rebase marker" history [] eq_refl (or_introl eq_refl)).
  repeat (constructor; [apply Contains_false; reflexivity|]). constructor.
Defined.

Lemma collect_to_hash pre c tail acc :
  exists before last,
    collect ((inr <$> pre) ++ inr c :: tail) (Hash c) acc
      = inr (acc ++ before ++ [last]) /\
    Hash last = Hash c /\
    Forall (fun c' => Hash c' <> Hash c) before /\
    exists after, pre ++ [c] = before ++ last :: after.
Proof.
  revert acc. induction pre as [|c0 pre IH]; intros acc.
  - exists [], c. cbn. rewrite String.eqb_refl.
    repeat split; [constructor|]. exists []. reflexivity.
  - cbn. destruct (String.eqb_spec (Hash c0) (Hash c)) as [Heq|Hne].
    + exists [], c0. repeat split; [exact Heq|constructor|].
      exists (pre ++ [c]). reflexivity.
    + destruct (IH (acc ++ [c0])) as (before & last & Hcol & Hlast & Hbefore & after & Hsplit).
      exists (c0 :: before), last. rewrite Hcol, <- app_assoc.
      repeat split; [exact Hlast|constructor; assumption|].
      exists after. cbn. rewrite Hsplit. reflexivity.
Qed.

(** X12: The marker commit bounds a log: when [FindRebaseMarkerCommit] finds a
    commit, [Log] from the same start with that commit's hash as
    [stopAtHash] succeeds, and its result ends with a commit of that hash
    (the first one of the log), no earlier element having it. *)
Theorem Log_to_marker_commit NewHash repository from marker c :
  FindRebaseMarkerCommit NewHash repository from marker = inr c ->
  exists before last,
    Log NewHash repository from (Hash c) = inr (before ++ [last]) /\
    Hash last = Hash c /\
    Forall (fun c' => Hash c' <> Hash c) before.
Proof.
  intros Hfind.
  destruct (RepoLog repository (logOptions NewHash from)) as [err|iter] eqn:Hlog.
  { unfold FindRebaseMarkerCommit in Hfind. unfold logOptions in Hlog.
    destruct (0 <? String.length from)%nat; rewrite Hlog in Hfind; discriminate. }
  rewrite (FindRebaseMarkerCommit_iter _ _ _ _ _ Hlog) in Hfind.
  apply findMarker_found in Hfind as (pre & tail & -> & _ & _).
  rewrite (Log_iter _ _ _ _ _ Hlog).
  destruct (collect_to_hash pre c tail []) as (before & last & Hcol & Hlast & Hbefore & _).
  exists before, last. rewrite Hcol. repeat split; assumption.
Qed.

Lemma Log_to_marker_commit_witness :
  FindRebaseMarkerCommit (fun h => h) markedRepo EmptyString "Rebase marker" = inr marked /\
  exists before last,
    Log (fun h => h) markedRepo EmptyString (Hash marked) = inr (before ++ [last]) /\
    Hash last = Hash marked.
Proof.
  split; [reflexivity|].
  destruct (Log_to_marker_commit (fun h => h) markedRepo EmptyString "Rebase marker"
              marked eq_refl) as (before & last & HLog & Hlast & _).
  exists before, last. split; assumption.
Defined.

(** X13: an error of the iterator other than [io.EOF] that comes before a
    commit with the hash [stopAtHash] fails [Log] as a whole: the error is
    returned wrapped and the commits read so far are dropped. *)
Theorem Log_fails_on_iterator_error NewHash repository from stopAtHash pre err tail :
  RepoLog repository (logOptions NewHash from)
    = inr ((inr <$> pre) ++ inl err :: tail) ->
  err <> EOF ->
  Forall (fun c => Hash c <> stopAtHash) pre ->
  Log NewHash repository from stopAtHash =
  inl (Errorw "iterating through commit log failed: %w" [] err).
Proof.
  intros Hlog Herr Hall. rewrite (Log_iter _ _ _ _ _ Hlog). clear Hlog.
  generalize (@nil Commit).
  induction Hall as [|c pre Hc Hall IH]; intros acc.
  - cbn. destruct err; congruence.
  - cbn. apply String.eqb_neq in Hc. rewrite Hc. apply IH.
Qed.

Lemma Log_fails_on_iterator_error_witness :
  RepoLog brokenRepo (logOptions (fun h => h) EmptyString)
    = inr ((inr <$> [later]) ++ inl ioError :: [inr carried]) /\
  Log (fun h => h) brokenRepo EmptyString hashB =
  inl (Errorw "iterating through commit log failed: %w" [] ioError).
Proof.
  split; [reflexivity|].
  apply (Log_fails_on_iterator_error (fun h => h) brokenRepo EmptyString hashB [later]
           ioError [inr carried] eq_refl); [discriminate|].
  constructor; [discriminate|constructor].
Defined.

Lemma collect_sound iter stopAtHash acc commits :
  collect iter stopAtHash acc = inr commits ->
  exists got tail,
    commits = acc ++ got /\ iter = (inr <$> got) ++ tail /\
    (forall i c, got !! i = Some c -> Hash c = stopAtHash -> S i = length got) /\
    (atEnd tail \/ exists c, last got = Some c /\ Hash c = stopAtHash).
Proof.
  revert acc. induction iter as [|[e|c0] iter IH]; intros acc; cbn [collect].
  - intros [= <-]. exists [], []. rewrite app_nil_r.
    repeat split; [intros i c [=]|left; left; reflexivity].
  - destruct e; try discriminate. intros [= <-]. exists [], (inl EOF :: iter).
    rewrite app_nil_r.
    repeat split; [intros i c [=]|left; right; eexists; reflexivity].
  - destruct (String.eqb_spec (Hash c0) stopAtHash) as [Heq|Hne].
    + intros [= <-]. exists [c0], iter. repeat split.
      * intros [|i] c Hc _; [reflexivity|]. destruct i; discriminate.
      * right. exists c0. split; [reflexivity|exact Heq].
    + intros Hcol. destruct (IH _ Hcol) as (got & tail & -> & -> & Honly & Hend).
      exists (c0 :: got), tail. rewrite <- app_assoc. repeat split.
      * intros [|i] c Hc Hh; [injection Hc as ->; congruence|].
        cbn. f_equal. apply (Honly i c Hc Hh).
      * destruct Hend as [Hend|(c & Hlast & Hc)]; [left; exact Hend|].
        right. exists c. split; [|exact Hc].
        destruct got; [discriminate|exact Hlast].
Qed.

(** X14: Whenever [Log] succeeds its result is a prefix of what the iterator
    yields, in the same order; a commit with the hash [stopAtHash] can only
    be its last element; and it stops short of the end of the iterator only
    at such a commit. *)
Theorem Log_result_is_bounded_prefix NewHash repository from stopAtHash iter commits :
  RepoLog repository (logOptions NewHash from) = inr iter ->
  Log NewHash repository from stopAtHash = inr commits ->
  exists tail,
    iter = (inr <$> commits) ++ tail /\
    (forall i c, commits !! i = Some c -> Hash c = stopAtHash ->
       S i = length commits) /\
    (atEnd tail \/ exists c, last commits = Some c /\ Hash c = stopAtHash).
Proof.
  intros Hlog HLog. rewrite (Log_iter _ _ _ _ _ Hlog) in HLog.
  destruct (collect_sound _ _ _ _ HLog) as (got & tail & -> & -> & Honly & Hend).
  exists tail. repeat split; assumption.
Qed.

Lemma Log_result_is_bounded_prefix_witness :
  RepoLog scenario.repo (logOptions (fun h => h) EmptyString) = inr (inr <$> history) /\
  Log (fun h => h) scenario.repo EmptyString hashB = inr [later; carried] /\
  exists tail : CommitIter, (inr <$> history) = (inr <$> [later; carried]) ++ tail.
Proof.
  split; [reflexivity|]. split; [reflexivity|].
  destruct (Log_result_is_bounded_prefix (fun h => h) scenario.repo EmptyString hashB
              _ [later; carried] eq_refl eq_refl) as (tail & Htail & _).
  exists tail. exact Htail.
Defined.

Lemma forEachAppend_prefix commits tail acc :
  tail = [] \/ (exists e rest, tail = inl e :: rest) ->
  fst (forEachAppend ((inr <$> commits) ++ tail) acc) = acc ++ commits.
Proof.
  intros Htail. revert acc. induction commits as [|c commits IH]; intros acc.
  - rewrite app_nil_r. destruct Htail as [->|(e & rest & ->)]; [reflexivity|].
    destruct e; reflexivity.
  - cbn. rewrite IH, <- app_assoc. reflexivity.
Qed.

(** X15: Once the tag, its tag object and the log since the tagger's time are
    obtained, [LogFromTag] never fails: it returns the commits the iterator
    yields before its end or before its first error, and that error is
    lost. *)
Theorem LogFromTag_keeps_commits_before_an_error
        quoteTime objects tag tagHash when commits tail :
  Tag objects tag = inr tagHash ->
  TagObject objects tagHash = inr when ->
  LogSince objects when = inr ((inr <$> commits) ++ tail) ->
  tail = [] \/ (exists e rest, tail = inl e :: rest) ->
  LogFromTag quoteTime objects tag = inr commits.
Proof.
  intros Htag Hobj Hlog Htail. unfold LogFromTag.
  rewrite Htag, Hobj, Hlog, (forEachAppend_prefix commits tail [] Htail).
  reflexivity.
Qed.

Lemma LogFromTag_keeps_commits_before_an_error_witness :
  Tag taggedObjects "v1.31.0" = inr hashA /\
  TagObject taggedObjects hashA = inr 1700000000 /\
  LogFromTag (fun _ => EmptyString) taggedObjects "v1.31.0" = inr [later; carried].
Proof.
  split; [reflexivity|]. split; [reflexivity|].
  apply (LogFromTag_keeps_commits_before_an_error (fun _ => EmptyString) taggedObjects
           "v1.31.0" hashA 1700000000 [later; carried] [inl ioError; inr dropped]
           eq_refl eq_refl eq_refl).
  right. eexists _, _. reflexivity.
Defined.

(** X16: [Head] is [LogHash] of the hash HEAD refers to, and
    [getCommitMessageAtHead] is the message of the commit [Head] returns,
    with the same errors. *)
Theorem getCommitMessageAtHead_is_message_of_Head objects :
  Head objects =
    match RepoHead objects with
    | inl err => inl err
    | inr hash => LogHash objects hash
    end /\
  getCommitMessageAtHead objects =
    match Head objects with
    | inl err => inl err
    | inr commit => inr (Message commit)
    end.
Proof.
  unfold Head, getCommitMessageAtHead, LogHash.
  destruct (RepoHead objects) as [err|hash]; [split; reflexivity|].
  destruct (CommitObject objects hash); split; reflexivity.
Qed.

(** ** Package [git]: remotes, amending and sorting by date *)

(** X17: The remotes are checked in order and [openshift] comes first: when it
    does not pass, [CheckRemotes] logs nothing and returns the error of that
    remote (not found, no fetch URL, or URL mismatch), and the [upstream]
    remote is not looked at. *)
Theorem CheckRemotes_openshift_first repository t :
  (forall url, firstURL repository "openshift" = Some (Some url) ->
     ~ occursIn "github.com:openshift/kubernetes.git" url) ->
  CheckRemotes repository t =
    (Returns (Some (remoteError repository "openshift"
                      "github.com:openshift/kubernetes.git")), t) /\
  forall repository',
    firstURL repository' "openshift" = firstURL repository "openshift" ->
    CheckRemotes repository' t = CheckRemotes repository t.
Proof.
  intros Hbad.
  assert (Hcases : forall r,
            firstURL r "openshift" = firstURL repository "openshift" ->
            CheckRemotes r t =
            (Returns (Some (remoteError repository "openshift"
                              "github.com:openshift/kubernetes.git")), t)).
  { intros r Hr. unfold CheckRemotes, expectedRemotes, remoteError. cbn [checkEach].
    rewrite fetchURLForRemote_firstURL, Hr.
    destruct (firstURL repository "openshift") as [[url|]|]; try reflexivity.
    specialize (Hbad url eq_refl). apply Contains_false in Hbad.
    rewrite Hbad. reflexivity. }
  split; [apply Hcases; reflexivity|].
  intros r Hr. rewrite (Hcases r Hr), (Hcases repository eq_refl). reflexivity.
Qed.

Lemma CheckRemotes_openshift_first_witness :
  (forall url,
     firstURL (mkRepository ∅ (fun _ => inr [])) "openshift" = Some (Some url) ->
     ~ occursIn "github.com:openshift/kubernetes.git" url) /\
  CheckRemotes (mkRepository ∅ (fun _ => inr [])) [] =
  (Returns (Some ErrRemoteNotFound), []).
Proof.
  assert (H : forall url,
            firstURL (mkRepository ∅ (fun _ => inr [])) "openshift" = Some (Some url) ->
            ~ occursIn "github.com:openshift/kubernetes.git" url)
    by (intros url [=]).
  split; [exact H|].
  exact (proj1 (CheckRemotes_openshift_first (mkRepository ∅ (fun _ => inr [])) [] H)).
Defined.

Lemma appendMessages_concat args msgs :
  gitcmd.appendMessages args msgs =
  args ++ concat ((fun msg => ["-m"; msg]) <$> msgs).
Proof.
  revert args. induction msgs as [|msg msgs IH]; intros args; cbn.
  - rewrite app_nil_r. reflexivity.
  - rewrite IH, <- app_assoc. reflexivity.
Qed.

Lemma logOutput_lines output t :
  gitcmd.logOutput output t = (Returns tt, t ++ outputLines output).
Proof.
  unfold gitcmd.logOutput, outputLines. destruct output as [|c output]; cbn.
  - unfold ret. rewrite app_nil_r. reflexivity.
  - unfold bind, klog. flatten_trace. reflexivity.
Qed.

(** X19: [AmendCommitMessage] runs nothing and logs nothing when the message at
    HEAD cannot be read.  Otherwise it runs one command,
    [git commit --allow-empty --amend] followed by one [-m <message>] pair
    for each message of [f] applied to the message at HEAD, in order;
    it returns the error of that command wrapped, and logs the command and
    then its output when there is any, also when the command failed. *)
Theorem AmendCommitMessage_command objects runner f t :
  (forall err,
     getCommitMessageAtHead objects = inl err ->
     gitcmd.AmendCommitMessage objects runner f t = (Returns (Some err), t)) /\
  (forall current,
     getCommitMessageAtHead objects = inr current ->
     gitcmd.AmendCommitMessage objects runner f t =
     (Returns (amendError
                 (snd (gitcmd.CombinedOutput runner
                         (t ++ [Klog Info 0 "amend commit message"
                                  ["command";
                                   gitcmd.CmdString runner (amendCommand (f current))]])
                         (amendCommand (f current))))),
      t ++ [Klog Info 0 "amend commit message"
              ["command"; gitcmd.CmdString runner (amendCommand (f current))]]
        ++ outputLines
             (fst (gitcmd.CombinedOutput runner
                     (t ++ [Klog Info 0 "amend commit message"
                              ["command";
                               gitcmd.CmdString runner (amendCommand (f current))]])
                     (amendCommand (f current)))))).
Proof.
  split.
  - intros err Hhead. unfold gitcmd.AmendCommitMessage. rewrite Hhead. reflexivity.
  - intros current Hhead. unfold gitcmd.AmendCommitMessage. rewrite Hhead.
    rewrite appendMessages_concat.
    change ("git" :: ["commit"; "--allow-empty"; "--amend"] ++
              concat ((fun msg => ["-m"; msg]) <$> f current))
      with (amendCommand (f current)).
    unfold bind, klog, gitcmd.run.
    destruct (gitcmd.CombinedOutput runner _ (amendCommand (f current)))
      as [output err].
    rewrite logOutput_lines. cbn [fst snd].
    destruct err; unfold ret, amendError; rewrite <- app_assoc; reflexivity.
Qed.

(** The command line of an amend has three fixed arguments and two for
    each message. *)
Lemma amendCommand_length msgs :
  length (amendCommand msgs) = (4 + 2 * length msgs)%nat.
Proof.
  unfold amendCommand. rewrite length_app. cbn [length].
  induction msgs as [|msg msgs IH]; cbn; [reflexivity|].
  cbn in IH. lia.
Qed.

Lemma sliceIndex_Returns {A} (s : list A) i :
  0 <= i < Z.of_nat (length s) ->
  exists x, s !! Z.to_nat i = Some x /\ sliceIndex s i = Returns x.
Proof.
  intros Hi. unfold sliceIndex.
  destruct (Z.ltb_spec i 0); [lia|].
  destruct (lookup_lt_is_Some_2 s (Z.to_nat i)) as [x Hx]; [lia|].
  exists x. rewrite Hx. split; reflexivity.
Qed.

Lemma sliceIndex_Panics {A} (s : list A) i :
  ~ (0 <= i < Z.of_nat (length s)) -> sliceIndex s i = Panics "index out of range".
Proof.
  intros Hi. unfold sliceIndex.
  destruct (Z.ltb_spec i 0); [reflexivity|].
  rewrite (proj2 (lookup_ge_None s (Z.to_nat i))) by lia. reflexivity.
Qed.

Lemma swapIndex_inj i j : Inj (=) (=) (swapIndex i j).
Proof.
  intros n m. unfold swapIndex.
  repeat (destruct (decide _)); intros; subst; congruence.
Qed.

Lemma Swap_lookup (s : CommitsByDate) i j si sj n :
  s !! i = Some si -> s !! j = Some sj ->
  <[j := si]> (<[i := sj]> s) !! n = s !! swapIndex i j n.
Proof.
  intros Hi Hj. unfold swapIndex.
  pose proof (lookup_lt_Some _ _ _ Hi). pose proof (lookup_lt_Some _ _ _ Hj).
  destruct (decide (n = j)) as [->|Hnj].
  - rewrite list_lookup_insert_eq by (rewrite length_insert; assumption).
    destruct (decide (j = i)) as [->|]; [congruence|exact (eq_sym Hi)].
  - rewrite list_lookup_insert_ne by congruence.
    destruct (decide (n = i)) as [->|Hni].
    + rewrite list_lookup_insert_eq by assumption. exact (eq_sym Hj).
    + rewrite list_lookup_insert_ne by congruence. reflexivity.
Qed.

(** X20: [Swap] on two indices of the slice never panics, only rearranges (the
    result is a permutation of the slice, of the same length, with the two
    elements exchanged), and swapping again restores the slice. *)
Theorem Swap_exchanges s i j :
  inRange s i -> inRange s j ->
  exists s',
    Swap s i j = Returns s' /\
    Len s' = Len s /\
    s' ≡ₚ s /\
    s' !! Z.to_nat i = s !! Z.to_nat j /\
    s' !! Z.to_nat j = s !! Z.to_nat i /\
    Swap s' i j = Returns s.
Proof.
  unfold inRange, Len. intros Hi Hj.
  destruct (sliceIndex_Returns s i Hi) as (si & Hsi & Ei).
  destruct (sliceIndex_Returns s j Hj) as (sj & Hsj & Ej).
  set (s' := <[Z.to_nat j := si]> (<[Z.to_nat i := sj]> s)).
  assert (Hlook : forall n, s' !! n = s !! swapIndex (Z.to_nat i) (Z.to_nat j) n)
    by (intros n; apply Swap_lookup; assumption).
  assert (Hlen : length s' = length s) by (unfold s'; rewrite !length_insert; reflexivity).
  exists s'. split; [unfold Swap; rewrite Ej, Ei; reflexivity|].
  split; [rewrite Hlen; reflexivity|].
  split.
  { apply Permutation_inj. split; [exact Hlen|].
    exists (swapIndex (Z.to_nat i) (Z.to_nat j)). split; [apply swapIndex_inj|exact Hlook]. }
  assert (Hi' : s' !! Z.to_nat i = Some sj).
  { rewrite Hlook. unfold swapIndex. rewrite decide_True by reflexivity. exact Hsj. }
  assert (Hj' : s' !! Z.to_nat j = Some si).
  { rewrite Hlook. unfold swapIndex.
    destruct (decide (Z.to_nat j = Z.to_nat i)) as [Heq|]; [rewrite Heq; exact Hsi|].
    rewrite decide_True by reflexivity. exact Hsi. }
  split; [congruence|]. split; [congruence|].
  unfold Swap, sliceIndex.
  destruct (Z.ltb_spec j 0); [lia|]. destruct (Z.ltb_spec i 0); [lia|].
  rewrite Hj', Hi'. f_equal. apply list_eq. intros n.
  rewrite (Swap_lookup s' _ _ sj si n Hi' Hj'), Hlook.
  f_equal. unfold swapIndex.
  repeat (destruct (decide _)); subst; congruence.
Qed.

Lemma Swap_exchanges_witness :
  inRange byDate 0 /\ inRange byDate 2 /\
  Swap byDate 0 2 =
  Returns [Some (mkDated dropped (wallTime 20)); Some (mkDated carried (wallTime 10));
           Some (mkDated later (wallTime 30))].
Proof.
  assert (H0 : inRange byDate 0) by (unfold inRange, Len; cbn; lia).
  assert (H2 : inRange byDate 2) by (unfold inRange, Len; cbn; lia).
  split; [exact H0|]. split; [exact H2|].
  destruct (Swap_exchanges byDate 0 2 H0 H2) as (s' & Hswap & _).
  rewrite Hswap. vm_compute in Hswap. injection Hswap as <-. reflexivity.
Defined.

(** [Swap] moves nil entries like any other. *)
Lemma Swap_with_nil_entry :
  Swap withNil 0 1 = Returns [None; Some (mkDated later (wallTime 30))].
Proof. reflexivity. Qed.

Lemma entryAt_inRange s i c : entryAt s i c -> inRange s i.
Proof.
  intros [Hi Hc]. apply lookup_lt_Some in Hc. unfold inRange, Len. lia.
Qed.

Lemma Less_entries s i j ci cj :
  entryAt s i ci -> entryAt s j cj ->
  Less s i j = Returns (Before (CommitterWhen ci) (CommitterWhen cj)).
Proof.
  intros [Hi Hci] [Hj Hcj]. unfold Less, sliceIndex.
  destruct (Z.ltb_spec i 0); [lia|]. destruct (Z.ltb_spec j 0); [lia|].
  rewrite Hci, Hcj. reflexivity.
Qed.

(** X21: [Swap] panics exactly when one of the two indices is outside the
    slice, nil entries or not; [Less], which follows the two pointers,
    panics exactly when one of the indices is outside the slice or one of
    the two entries is nil. *)
Theorem Swap_Less_panic_iff s i j :
  ((exists p, Swap s i j = Panics p) <-> ~ (inRange s i /\ inRange s j)) /\
  ((exists p, Less s i j = Panics p) <->
   ~ (exists ci cj, entryAt s i ci /\ entryAt s j cj)).
Proof.
  split.
  - unfold inRange, Len, Swap.
    destruct (decide (0 <= i < Z.of_nat (length s))) as [Hi|Hi];
      destruct (decide (0 <= j < Z.of_nat (length s))) as [Hj|Hj].
    + destruct (sliceIndex_Returns s i Hi) as (si & _ & ->).
      destruct (sliceIndex_Returns s j Hj) as (sj & _ & ->).
      split; [intros [p [=]]|intros H; destruct H; split; assumption].
    + rewrite (sliceIndex_Panics s j Hj).
      split; [intros _ [_ ?]; contradiction|intros _; eexists; reflexivity].
    + rewrite (sliceIndex_Panics s i Hi).
      destruct (sliceIndex_Returns s j Hj) as (sj & _ & ->).
      split; [intros _ [? _]; contradiction|intros _; eexists; reflexivity].
    + rewrite (sliceIndex_Panics s j Hj).
      split; [intros _ [? _]; contradiction|intros _; eexists; reflexivity].
  - split.
    + intros [p Hp] (ci & cj & Hci & Hcj).
      rewrite (Less_entries s i j ci cj Hci Hcj) in Hp. discriminate.
    + intros Hno. unfold Less.
      destruct (decide (0 <= i < Z.of_nat (length s))) as [Hi|Hi];
        [|rewrite (sliceIndex_Panics s i Hi); eexists; reflexivity].
      destruct (sliceIndex_Returns s i Hi) as ([ci|] & Hci & ->);
        [|eexists; reflexivity].
      cbn [deref].
      destruct (decide (0 <= j < Z.of_nat (length s))) as [Hj|Hj];
        [|rewrite (sliceIndex_Panics s j Hj); eexists; reflexivity].
      destruct (sliceIndex_Returns s j Hj) as ([cj|] & Hcj & ->);
        [|eexists; reflexivity].
      destruct Hno. exists ci, cj. split; split; (lia || assumption).
Qed.

(** With both indices in range [Less] still panics on a nil entry. *)
Lemma Less_panics_on_nil_entry :
  inRange withNil 0 /\ inRange withNil 1 /\
  Less withNil 0 1 = Panics "invalid memory address or nil pointer dereference".
Proof. unfold inRange, Len. cbn. repeat split; lia || reflexivity. Qed.

(** Between times of one kind [Before] is a strict weak order. *)
Lemma Before_strict_weak_order t u v m :
  hasMonotonic t = m -> hasMonotonic u = m -> hasMonotonic v = m ->
  Before t t = false /\
  (Before t u = true -> Before u t = false) /\
  (Before t u = true -> Before u v = true -> Before t v = true) /\
  (Before t v = true -> Before t u = true \/ Before u v = true).
Proof.
  destruct t as [ts tn [tm|]], u as [us un [um|]], v as [vs vn [vm|]];
    unfold hasMonotonic, Before; cbn [monotonic sec nsec];
    intros <-; try discriminate; intros _ _.
  - repeat match goal with
           | |- context [Z.ltb ?a ?b] => destruct (Z.ltb_spec a b)
           end; repeat split; intros; try discriminate; try lia; auto.
  - repeat match goal with
           | |- context [Z.ltb ?a ?b] => destruct (Z.ltb_spec a b)
           | |- context [Z.eqb ?a ?b] => destruct (Z.eqb_spec a b)
           end; cbn [orb andb];
      repeat split; intros; try discriminate; try lia; auto.
Qed.

(** X22: on entries that are not nil and whose committer times are of one
    kind (all without a monotonic reading, as times decoded from commits
    are, or all with one), [Less] returns and is a strict weak order, as
    sorting needs: irreflexive, asymmetric, transitive, and an element less
    than another is less than any third or the third is less than the
    other. *)
Theorem Less_strict_weak_order s i j k m :
  clockAt s i m -> clockAt s j m -> clockAt s k m ->
  Less s i i = Returns false /\
  (Less s i j = Returns true -> Less s j i = Returns false) /\
  (Less s i j = Returns true -> Less s j k = Returns true ->
   Less s i k = Returns true) /\
  (Less s i k = Returns true ->
   Less s i j = Returns true \/ Less s j k = Returns true).
Proof.
  intros (ci & Hci & Hmi) (cj & Hcj & Hmj) (ck & Hck & Hmk).
  rewrite (Less_entries s i i ci ci Hci Hci), (Less_entries s i j ci cj Hci Hcj),
    (Less_entries s j i cj ci Hcj Hci), (Less_entries s j k cj ck Hcj Hck),
    (Less_entries s i k ci ck Hci Hck).
  destruct (Before_strict_weak_order _ _ _ m Hmi Hmj Hmk)
    as (Hirr & Hasym & Htrans & Hneg).
  split; [rewrite Hirr; reflexivity|].
  split; [intros [= H]; rewrite (Hasym H); reflexivity|].
  split; [intros [= H1] [= H2]; rewrite (Htrans H1 H2); reflexivity|].
  intros [= H]. destruct (Hneg H) as [H'|H']; rewrite H'; [left|right]; reflexivity.
Qed.

Lemma Less_strict_weak_order_witness :
  clockAt byDate 1 false /\ clockAt byDate 2 false /\ clockAt byDate 0 false /\
  Less byDate 1 0 = Returns true.
Proof.
  assert (H0 : clockAt byDate 0 false)
    by (eexists; split; [split; [lia|reflexivity]|reflexivity]).
  assert (H1 : clockAt byDate 1 false)
    by (eexists; split; [split; [lia|reflexivity]|reflexivity]).
  assert (H2 : clockAt byDate 2 false)
    by (eexists; split; [split; [lia|reflexivity]|reflexivity]).
  split; [exact H1|]. split; [exact H2|]. split; [exact H0|].
  destruct (Less_strict_weak_order byDate 1 2 0 false H1 H2 H0) as (_ & _ & Htrans & _).
  apply Htrans; reflexivity.
Defined.

(** The times have to be of one kind: with readings of the monotonic clock
    on some entries only, [Less] is not transitive. *)
Lemma Less_mixed_clocks_not_transitive :
  Less mixedClocks 0 1 = Returns true /\
  Less mixedClocks 1 2 = Returns true /\
  Less mixedClocks 0 2 = Returns false.
Proof. repeat split; reflexivity. Qed.
